(** * ZapController: the lifecycle controller of zap-desktop

    A shallow embedding of the controller module (the [ZapController] class
    and the [grpcSslCipherSuites] helper).  The controller object is a record that is
    threaded through a state-and-exception monad: a JavaScript exception (or a
    rejected promise) keeps every mutation made before it was thrown.

    The outcomes of the calls into the outside world (gRPC connects, spawning
    lnd, the moment the lnd process exits) are inputs of the model. *)

From stdpp Require Import base option list strings gmap.
From Stdlib Require Import ZArith Lia.

Local Open Scope string_scope.

(** ** Plain data *)

(** [onboardingOptions.type]: 'local' | 'custom' | 'btcpayserver'. *)
Inductive ConnectionType := local | custom | btcpayserver.

Definition ConnectionType_eqb (a b : ConnectionType) : bool :=
  match a, b with
  | local, local | custom, custom | btcpayserver, btcpayserver => true
  | _, _ => false
  end.

(** Values carried by an options object. *)
Inductive Value :=
| VString (s : string)
| VBool (b : bool).

(** [Array.prototype.join]. *)
Fixpoint join (sep : string) (l : list string) : string :=
  match l with
  | [] => EmptyString
  | [x] => x
  | x :: rest => x +:+ sep +:+ join sep rest
  end.

Definition rsaCipherSuites : list string :=
  [ "ECDHE-RSA-AES256-GCM-SHA384";
    "ECDHE-RSA-AES128-GCM-SHA256" ].

Definition ecdsaCipherSuites : list string :=
  [ "ECDHE-ECDSA-AES128-GCM-SHA256";
    "ECDHE-ECDSA-AES256-GCM-SHA384";
    "ECDHE-ECDSA-AES128-CBC-SHA256";
    "ECDHE-ECDSA-CHACHA20-POLY1305" ].

Definition grpcSslCipherSuites (connectionType : ConnectionType) : string :=
  join ":" (if ConnectionType_eqb connectionType btcpayserver
            then rsaCipherSuites
            else ecdsaCipherSuites).

(** JavaScript truthiness of a string, and [a || b] on an environment
    variable that is either undefined or a string. *)
Definition truthy (s : string) : bool :=
  match s with
  | EmptyString => false
  | String _ _ => true
  end.

Definition or_else (a : option string) (b : string) : string :=
  match a with
  | Some s => if truthy s then s else b
  | None => b
  end.

(** ** The state machine library

    [StateMachine.factory(ZapController, { transitions: [...] })] of
    javascript-state-machine 3.  The table is the one of the source; the
    functions below are the library's lookup ([transitionFor], with the
    wildcard source) and its public [can]. *)
Module StateMachine.

(** 'none' is the library's state before any transition. *)
Inductive State := none | onboarding | running | connected | terminated.

Inductive Transition := startOnboarding | startLnd | connectLnd | terminate.

Inductive From := Wildcard | Exactly (s : State).

Record Row := { name : Transition; from : From; to : State }.

Definition State_eqb (a b : State) : bool :=
  match a, b with
  | none, none | onboarding, onboarding | running, running
  | connected, connected | terminated, terminated => true
  | _, _ => false
  end.

Definition Transition_eqb (a b : Transition) : bool :=
  match a, b with
  | startOnboarding, startOnboarding | startLnd, startLnd
  | connectLnd, connectLnd | terminate, terminate => true
  | _, _ => false
  end.

Definition transitions : list Row :=
  [ {| name := startOnboarding; from := Wildcard; to := onboarding |};
    {| name := startLnd; from := Exactly onboarding; to := running |};
    {| name := connectLnd; from := Exactly onboarding; to := connected |};
    {| name := terminate; from := Wildcard; to := terminated |} ].

Definition is_exact (s : State) (t : Transition) (r : Row) : bool :=
  Transition_eqb (name r) t &&
  match from r with Exactly s' => State_eqb s' s | Wildcard => false end.

Definition is_wildcard (t : Transition) (r : Row) : bool :=
  Transition_eqb (name r) t &&
  match from r with Wildcard => true | Exactly _ => false end.

(** [map[state][transition] || map['*'][transition]]. *)
Definition transitionFor (s : State) (t : Transition) : option State :=
  match List.find (is_exact s t) transitions with
  | Some r => Some (to r)
  | None => to <$> List.find (is_wildcard t) transitions
  end.

Definition can (s : State) (t : Transition) : bool :=
  match transitionFor s t with Some _ => true | None => false end.

(** The states with no way out other than the wildcard rows. *)
Definition terminal (s : State) : bool := State_eqb s terminated.

(** What the lifecycle callbacks receive. *)
Record Lifecycle := { l_transition : Transition; l_from : State; l_to : State }.

End StateMachine.
Import StateMachine.

(** ** Errors *)

(** [e.code] is a string for the errors the gRPC wrappers of the application
    raise, a number for a gRPC status, and undefined otherwise. *)
Inductive Code :=
| CodeString (s : string)
| CodeNumber (n : Z)
| CodeUndefined.

Definition Code_eqb (a b : Code) : bool :=
  match a, b with
  | CodeString s, CodeString s' => bool_decide (s = s')
  | CodeNumber n, CodeNumber n' => Z.eqb n n'
  | CodeUndefined, CodeUndefined => true
  | _, _ => false
  end.

Record GrpcError := { code : Code; message : string; details : option string }.

(** Everything that is thrown in the model. *)
Inductive Exn :=
| ConnectError (e : GrpcError)
| InvalidTransition (t : Transition) (s : State)
| ConfigValidationError (missing extra : list string)
| SpawnError.

Definition exn_code (e : Exn) : Code :=
  match e with ConnectError g => code g | _ => CodeUndefined end.

Definition exn_message (e : Exn) : string :=
  match e with
  | ConnectError g => message g
  | InvalidTransition _ _ => "transition is invalid in current state"
  | ConfigValidationError _ _ => "invalid settings"
  | SpawnError => "unable to start lnd"
  end.

Definition exn_details (e : Exn) : option string :=
  match e with ConnectError g => details g | _ => None end.

(** The error classes of the specification, as the codes the source tests. *)
Definition HostUnreachableError (msg : string) : GrpcError :=
  {| code := CodeString "LND_GRPC_HOST_ERROR"; message := msg; details := None |}.
Definition CertificateError (msg : string) : GrpcError :=
  {| code := CodeString "LND_GRPC_CERT_ERROR"; message := msg; details := None |}.
Definition MacaroonError (msg : string) : GrpcError :=
  {| code := CodeString "LND_GRPC_MACAROON_ERROR"; message := msg; details := None |}.
Definition UnimplementedError (msg : string) (d : option string) : GrpcError :=
  {| code := CodeNumber 12; message := msg; details := d |}.

(** ** The connection profile *)

Record LndConfig := {
  type : ConnectionType;
  currency : string;
  network : string;
  wallet : string;
  settings : gmap string Value
}.

(** The argument of [finishOnboarding]: [o_type] is [options.type], [o_fields]
    holds the other own properties of the object. *)
Record onboardingOptions := {
  o_type : ConnectionType;
  o_fields : gmap string Value
}.

(** lodash [pick(object, paths)]: the properties of [object] named in
    [paths]; names that [object] lacks are skipped. *)
Definition pick (object : gmap string Value) (paths : list string) : gmap string Value :=
  filter (λ kv, kv.1 ∈ paths) object.

(** The record written under 'activeConnection' in the settings store. *)
Record ActiveConnection := {
  ac_type : ConnectionType;
  ac_currency : string;
  ac_network : string;
  ac_wallet : string
}.

Section Profile.

(** [LndConfig.SETTINGS_PROPS], a table of the module '../lnd/config': the
    names of the settings of each connection type. *)
Variable SETTINGS_PROPS : ConnectionType → list string.

Definition missing_keys (t : ConnectionType) (s : gmap string Value) : list string :=
  List.filter (λ k, bool_decide (s !! k = None)) (SETTINGS_PROPS t).

Definition extra_keys (t : ConnectionType) (s : gmap string Value) : list string :=
  List.filter (λ k, bool_decide (k ∉ SETTINGS_PROPS t)) (elements (dom s)).

(** Modelled from the spec: the constructor of [LndConfig] (the module
    '../lnd/config' is not among the sources).  It stores the fields it is given and
    "validates the required-key invariant and fails with a
    ConfigValidationError naming the missing/extra keys": [settings] must
    hold exactly the keys required for the connection type. *)
Definition LndConfig_new (o : LndConfig) : Exn + LndConfig :=
  match missing_keys (type o) (settings o), extra_keys (type o) (settings o) with
  | [], [] => inr o
  | missing, extra => inl (ConfigValidationError missing extra)
  end.

End Profile.

(** ** RPC sessions and the lnd process *)

(** Modelled from the spec: a [Lightning] or [WalletUnlocker] object (the
    modules '../lnd/lightning' and '../lnd/walletUnlocker' are not among the
    sources).  A session is created closed, a successful [connect] opens it,
    [disconnect] closes it, and the capabilities [can('disconnect')] and
    [can('terminate')] reflect the connection state. *)
Record Session := { open : bool }.

Definition new_Session : Session := {| open := false |}.
Definition can_disconnect (s : Session) : bool := open s.
Definition can_terminate (s : Session) : bool := open s.

Inductive Signal := SIGINT | SIGTERM.

(** Modelled from the spec: a [Neutrino] object (the module '../lnd/neutrino'
    is not among the sources).  [process] tells whether a child process has been
    spawned, [kills] lists the signals sent with [kill], each with the time it
    was sent at, and [exitHandler] tells whether the one-shot 'exit' listener
    of [shutdownNeutrino] is registered. *)
Record Neutrino := {
  process : bool;
  kills : list (nat * Signal);
  exitHandler : bool
}.

Definition new_Neutrino : Neutrino :=
  {| process := false; kills := []; exitHandler := false |}.

Inductive ConnectResult := Connects | Fails (e : GrpcError).
Inductive StartResult := Starts | FailsToStart.

(** What the outside world answers during one turn of the controller. *)
Record World := {
  lightningConnect : ConnectResult;   (* this.lightning.connect() *)
  unlockerConnect : ConnectResult;    (* this.walletUnlocker.connect() *)
  neutrinoStart : StartResult;        (* this.neutrino.start() *)
  exitAfter : option nat;             (* ms until lnd exits once asked to stop *)
  exitDetails : string                (* the code, signal and last error it exits with *)
}.

(** ** Notifications to the renderer *)

Record Errors := {
  host : option string;
  cert : option string;
  macaroon : option string
}.

Inductive Data :=
| DUndefined
| DString (s : string)
| DNumber (n : Z)
| DErrors (e : Errors)
| DConfig (c : LndConfig).

Definition Notification : Type := string * Data.

(** ** The controller *)

Record Controller := {
  state : State;                          (* the state of the state machine *)
  mainWindow : bool;                      (* false once the window is closed *)
  outbox : list Notification;             (* mainWindow.webContents.send *)
  lndConfig : LndConfig;
  lightning : option Session;
  walletUnlocker : option Session;
  neutrino : option Neutrino;
  ipcListeners : list string;             (* channels of ipcMain.on *)
  cipherSuites : option string;           (* process.env.GRPC_SSL_CIPHER_SUITES *)
  savedConfig : option LndConfig;         (* lndConfig.save() *)
  activeConnection : option ActiveConnection;
  now : nat;                              (* the clock, in ms *)
  shutdownTimeout : option nat;           (* the deadline of the pending timer *)
  shutdownResolved : option nat;          (* when the latest shutdown's promise resolved *)
  dialogs : list string;                  (* dialog.showMessageBox *)
  quit : bool;                            (* app.quit() *)
  spawned : nat                           (* how many times [new Neutrino] ran *)
}.

(** Field updates ([this.x = v]). *)
Definition set_state (v : State) (c : Controller) : Controller :=
  {| state := v; mainWindow := mainWindow c; outbox := outbox c; lndConfig := lndConfig c;
     lightning := lightning c; walletUnlocker := walletUnlocker c; neutrino := neutrino c;
     ipcListeners := ipcListeners c; cipherSuites := cipherSuites c;
     savedConfig := savedConfig c; activeConnection := activeConnection c; now := now c;
     shutdownTimeout := shutdownTimeout c; shutdownResolved := shutdownResolved c;
     dialogs := dialogs c; quit := quit c; spawned := spawned c |}.
Definition set_mainWindow (v : bool) (c : Controller) : Controller :=
  {| state := state c; mainWindow := v; outbox := outbox c; lndConfig := lndConfig c;
     lightning := lightning c; walletUnlocker := walletUnlocker c; neutrino := neutrino c;
     ipcListeners := ipcListeners c; cipherSuites := cipherSuites c;
     savedConfig := savedConfig c; activeConnection := activeConnection c; now := now c;
     shutdownTimeout := shutdownTimeout c; shutdownResolved := shutdownResolved c;
     dialogs := dialogs c; quit := quit c; spawned := spawned c |}.
Definition set_outbox (v : list Notification) (c : Controller) : Controller :=
  {| state := state c; mainWindow := mainWindow c; outbox := v; lndConfig := lndConfig c;
     lightning := lightning c; walletUnlocker := walletUnlocker c; neutrino := neutrino c;
     ipcListeners := ipcListeners c; cipherSuites := cipherSuites c;
     savedConfig := savedConfig c; activeConnection := activeConnection c; now := now c;
     shutdownTimeout := shutdownTimeout c; shutdownResolved := shutdownResolved c;
     dialogs := dialogs c; quit := quit c; spawned := spawned c |}.
Definition set_lndConfig (v : LndConfig) (c : Controller) : Controller :=
  {| state := state c; mainWindow := mainWindow c; outbox := outbox c; lndConfig := v;
     lightning := lightning c; walletUnlocker := walletUnlocker c; neutrino := neutrino c;
     ipcListeners := ipcListeners c; cipherSuites := cipherSuites c;
     savedConfig := savedConfig c; activeConnection := activeConnection c; now := now c;
     shutdownTimeout := shutdownTimeout c; shutdownResolved := shutdownResolved c;
     dialogs := dialogs c; quit := quit c; spawned := spawned c |}.
Definition set_lightning (v : option Session) (c : Controller) : Controller :=
  {| state := state c; mainWindow := mainWindow c; outbox := outbox c;
     lndConfig := lndConfig c; lightning := v; walletUnlocker := walletUnlocker c;
     neutrino := neutrino c; ipcListeners := ipcListeners c;
     cipherSuites := cipherSuites c; savedConfig := savedConfig c;
     activeConnection := activeConnection c; now := now c;
     shutdownTimeout := shutdownTimeout c; shutdownResolved := shutdownResolved c;
     dialogs := dialogs c; quit := quit c; spawned := spawned c |}.
Definition set_walletUnlocker (v : option Session) (c : Controller) : Controller :=
  {| state := state c; mainWindow := mainWindow c; outbox := outbox c;
     lndConfig := lndConfig c; lightning := lightning c; walletUnlocker := v;
     neutrino := neutrino c; ipcListeners := ipcListeners c;
     cipherSuites := cipherSuites c; savedConfig := savedConfig c;
     activeConnection := activeConnection c; now := now c;
     shutdownTimeout := shutdownTimeout c; shutdownResolved := shutdownResolved c;
     dialogs := dialogs c; quit := quit c; spawned := spawned c |}.
Definition set_neutrino (v : option Neutrino) (c : Controller) : Controller :=
  {| state := state c; mainWindow := mainWindow c; outbox := outbox c;
     lndConfig := lndConfig c; lightning := lightning c;
     walletUnlocker := walletUnlocker c; neutrino := v; ipcListeners := ipcListeners c;
     cipherSuites := cipherSuites c; savedConfig := savedConfig c;
     activeConnection := activeConnection c; now := now c;
     shutdownTimeout := shutdownTimeout c; shutdownResolved := shutdownResolved c;
     dialogs := dialogs c; quit := quit c; spawned := spawned c |}.
Definition set_ipcListeners (v : list string) (c : Controller) : Controller :=
  {| state := state c; mainWindow := mainWindow c; outbox := outbox c;
     lndConfig := lndConfig c; lightning := lightning c;
     walletUnlocker := walletUnlocker c; neutrino := neutrino c; ipcListeners := v;
     cipherSuites := cipherSuites c; savedConfig := savedConfig c;
     activeConnection := activeConnection c; now := now c;
     shutdownTimeout := shutdownTimeout c; shutdownResolved := shutdownResolved c;
     dialogs := dialogs c; quit := quit c; spawned := spawned c |}.
Definition set_cipherSuites (v : option string) (c : Controller) : Controller :=
  {| state := state c; mainWindow := mainWindow c; outbox := outbox c;
     lndConfig := lndConfig c; lightning := lightning c;
     walletUnlocker := walletUnlocker c; neutrino := neutrino c;
     ipcListeners := ipcListeners c; cipherSuites := v; savedConfig := savedConfig c;
     activeConnection := activeConnection c; now := now c;
     shutdownTimeout := shutdownTimeout c; shutdownResolved := shutdownResolved c;
     dialogs := dialogs c; quit := quit c; spawned := spawned c |}.
Definition set_savedConfig (v : option LndConfig) (c : Controller) : Controller :=
  {| state := state c; mainWindow := mainWindow c; outbox := outbox c;
     lndConfig := lndConfig c; lightning := lightning c;
     walletUnlocker := walletUnlocker c; neutrino := neutrino c;
     ipcListeners := ipcListeners c; cipherSuites := cipherSuites c; savedConfig := v;
     activeConnection := activeConnection c; now := now c;
     shutdownTimeout := shutdownTimeout c; shutdownResolved := shutdownResolved c;
     dialogs := dialogs c; quit := quit c; spawned := spawned c |}.
Definition set_activeConnection (v : option ActiveConnection) (c : Controller) : Controller :=
  {| state := state c; mainWindow := mainWindow c; outbox := outbox c;
     lndConfig := lndConfig c; lightning := lightning c;
     walletUnlocker := walletUnlocker c; neutrino := neutrino c;
     ipcListeners := ipcListeners c; cipherSuites := cipherSuites c;
     savedConfig := savedConfig c; activeConnection := v; now := now c;
     shutdownTimeout := shutdownTimeout c; shutdownResolved := shutdownResolved c;
     dialogs := dialogs c; quit := quit c; spawned := spawned c |}.
Definition set_now (v : nat) (c : Controller) : Controller :=
  {| state := state c; mainWindow := mainWindow c; outbox := outbox c;
     lndConfig := lndConfig c; lightning := lightning c;
     walletUnlocker := walletUnlocker c; neutrino := neutrino c;
     ipcListeners := ipcListeners c; cipherSuites := cipherSuites c;
     savedConfig := savedConfig c; activeConnection := activeConnection c; now := v;
     shutdownTimeout := shutdownTimeout c; shutdownResolved := shutdownResolved c;
     dialogs := dialogs c; quit := quit c; spawned := spawned c |}.
Definition set_shutdownTimeout (v : option nat) (c : Controller) : Controller :=
  {| state := state c; mainWindow := mainWindow c; outbox := outbox c;
     lndConfig := lndConfig c; lightning := lightning c;
     walletUnlocker := walletUnlocker c; neutrino := neutrino c;
     ipcListeners := ipcListeners c; cipherSuites := cipherSuites c;
     savedConfig := savedConfig c; activeConnection := activeConnection c; now := now c;
     shutdownTimeout := v; shutdownResolved := shutdownResolved c; dialogs := dialogs c;
     quit := quit c; spawned := spawned c |}.
Definition set_shutdownResolved (v : option nat) (c : Controller) : Controller :=
  {| state := state c; mainWindow := mainWindow c; outbox := outbox c;
     lndConfig := lndConfig c; lightning := lightning c;
     walletUnlocker := walletUnlocker c; neutrino := neutrino c;
     ipcListeners := ipcListeners c; cipherSuites := cipherSuites c;
     savedConfig := savedConfig c; activeConnection := activeConnection c; now := now c;
     shutdownTimeout := shutdownTimeout c; shutdownResolved := v; dialogs := dialogs c;
     quit := quit c; spawned := spawned c |}.
Definition set_dialogs (v : list string) (c : Controller) : Controller :=
  {| state := state c; mainWindow := mainWindow c; outbox := outbox c;
     lndConfig := lndConfig c; lightning := lightning c;
     walletUnlocker := walletUnlocker c; neutrino := neutrino c;
     ipcListeners := ipcListeners c; cipherSuites := cipherSuites c;
     savedConfig := savedConfig c; activeConnection := activeConnection c; now := now c;
     shutdownTimeout := shutdownTimeout c; shutdownResolved := shutdownResolved c;
     dialogs := v; quit := quit c; spawned := spawned c |}.
Definition set_quit (v : bool) (c : Controller) : Controller :=
  {| state := state c; mainWindow := mainWindow c; outbox := outbox c;
     lndConfig := lndConfig c; lightning := lightning c;
     walletUnlocker := walletUnlocker c; neutrino := neutrino c;
     ipcListeners := ipcListeners c; cipherSuites := cipherSuites c;
     savedConfig := savedConfig c; activeConnection := activeConnection c; now := now c;
     shutdownTimeout := shutdownTimeout c; shutdownResolved := shutdownResolved c;
     dialogs := dialogs c; quit := v; spawned := spawned c |}.
Definition set_spawned (v : nat) (c : Controller) : Controller :=
  {| state := state c; mainWindow := mainWindow c; outbox := outbox c;
     lndConfig := lndConfig c; lightning := lightning c;
     walletUnlocker := walletUnlocker c; neutrino := neutrino c;
     ipcListeners := ipcListeners c; cipherSuites := cipherSuites c;
     savedConfig := savedConfig c; activeConnection := activeConnection c; now := now c;
     shutdownTimeout := shutdownTimeout c; shutdownResolved := shutdownResolved c;
     dialogs := dialogs c; quit := quit c; spawned := v |}.

(** ** The monad of the controller's methods

    A method takes the controller and gives back the controller it leaves
    behind together with what it returned or threw.  A promise that rejects is
    a method that throws: transitions are taken one at a time, each running to
    the end of its callbacks. *)

Inductive Outcome (A : Type) :=
| Returns (a : A)
| Throws (e : Exn).
Arguments Returns {A} a.
Arguments Throws {A} e.

Definition M (A : Type) : Type := Controller → Controller * Outcome A.

#[global] Instance M_ret : MRet M := λ A a c, (c, Returns a).

#[global] Instance M_bind : MBind M := λ A B k m c,
  match m c with
  | (c', Returns a) => k a c'
  | (c', Throws e) => (c', Throws e)
  end.

Definition throw {A} (e : Exn) : M A := λ c, (c, Throws e).

(** [try { m } catch (e) { h e }], and [m.catch(h)] on promises. *)
Definition try_catch {A} (m : M A) (h : Exn → M A) : M A := λ c,
  match m c with
  | (c', Returns a) => (c', Returns a)
  | (c', Throws e) => h e c'
  end.

Definition get : M Controller := λ c, (c, Returns c).
Definition modify (f : Controller → Controller) : M unit := λ c, (f c, Returns tt).

(** A call whose promise nobody waits for: a rejection is lost. *)
Definition detached (m : M unit) : M unit := try_catch m (λ _, mret tt).

Definition when (b : bool) (m : M unit) : M unit := if b then m else mret tt.

(** ** Helpers of the controller *)

Definition sendMessage (msg : string) (data : Data) : M unit := λ c,
  if mainWindow c
  then (set_outbox (outbox c ++ [(msg, data)]) c, Returns tt)
  else (c, Returns tt).

Definition ipcMain_on (channel : string) : M unit :=
  modify (λ c, set_ipcListeners (ipcListeners c ++ [channel]) c).

Definition ipcMain_removeAllListeners (channel : string) : M unit :=
  modify (λ c, set_ipcListeners
                 (List.filter (λ ch, negb (bool_decide (ch = channel))) (ipcListeners c)) c).

Definition _registerIpcListeners : M unit :=
  ipcMain_on "startLnd";;
  ipcMain_on "startLightningWallet".

Definition _removeIpcListeners : M unit :=
  ipcMain_removeAllListeners "startLnd";;
  ipcMain_removeAllListeners "startLightningWallet";;
  ipcMain_removeAllListeners "walletUnlocker";;
  ipcMain_removeAllListeners "lnd".

(** [await session.connect()] on the session just created. *)
Definition connect (r : ConnectResult) (s : Session) : Exn + Session :=
  match r with
  | Connects => inr {| open := true |}
  | Fails e => inl (ConnectError e)
  end.

Definition disconnect (s : Session) : Session := {| open := false |}.

Definition walletUnlocker_connect (r : ConnectResult) : M unit := λ c,
  match connect r (default new_Session (walletUnlocker c)) with
  | inr s => (set_walletUnlocker (Some s) c, Returns tt)
  | inl e => (c, Throws e)
  end.

Definition lightning_connect (r : ConnectResult) : M unit := λ c,
  match connect r (default new_Session (lightning c)) with
  | inr s => (set_lightning (Some s) c, Returns tt)
  | inl e => (c, Throws e)
  end.

Definition lightning_disconnect : M unit :=
  modify (λ c, set_lightning (disconnect <$> lightning c) c).

Definition startWalletUnlocker (w : World) : M unit :=
  modify (set_walletUnlocker (Some new_Session));;
  try_catch
    (walletUnlocker_connect (unlockerConnect w);;
     ipcMain_on "walletUnlocker";;
     sendMessage "walletUnlockerGrpcActive" DUndefined)
    (λ err, throw err).

Definition startLightningWallet (w : World) : M unit :=
  modify (set_lightning (Some new_Session));;
  try_catch
    (lightning_connect (lightningConnect w);;
     (* this.lightning.subscribe(this.mainWindow) *)
     ipcMain_on "lnd";;
     sendMessage "lightningGrpcActive" DUndefined)
    (λ err, throw err).

(** ** Shutting lnd down *)

Definition shutdownDelay : nat := (1000 * 10)%nat.

Definition kill (sig : Signal) (at_ : nat) (n : Neutrino) : Neutrino :=
  {| process := process n; kills := kills n ++ [(at_, sig)]; exitHandler := exitHandler n |}.

Definition set_exitHandler (b : bool) (n : Neutrino) : Neutrino :=
  {| process := process n; kills := kills n; exitHandler := b |}.

(** [resolve()]: only the first call settles the promise. *)
Definition resolve (c : Controller) : Controller :=
  match shutdownResolved c with
  | Some _ => c
  | None => set_shutdownResolved (Some (now c)) c
  end.

(** [const exitHandler = () => { clearTimeout(shutdownTimeout); resolve() }] *)
Definition run_exitHandler (c : Controller) : Controller :=
  resolve (set_shutdownTimeout None c).

(** The callback of [setTimeout]. Without a Neutrino object its first line
    throws inside the timer and nothing is resolved. *)
Definition run_shutdownTimeout (c : Controller) : Controller :=
  match neutrino c with
  | None => c
  | Some n =>
      let c := set_neutrino (Some (set_exitHandler false n)) c in
      resolve (set_neutrino (kill SIGTERM (now c) <$> neutrino c) c)
  end.

(** The body given to [new Promise], up to the end of its first turn. *)
Definition shutdown_executor (c : Controller) : Controller :=
  let c := set_shutdownResolved None c in
  let c := set_shutdownTimeout (Some (now c + shutdownDelay)) c in
  let c := set_neutrino (set_exitHandler true <$> neutrino c) c in
  let c := match lightning c with
           | Some s => if can_terminate s then set_lightning (Some (disconnect s)) c else c
           | None => c
           end in
  set_neutrino (kill SIGINT (now c) <$> neutrino c) c.

(** [if (this.lndConfig.type !== 'local' || !this.neutrino || !this.neutrino.process)] *)
Definition shutdown_guard (c : Controller) : bool :=
  negb (ConnectionType_eqb (type (lndConfig c)) local)
  || match neutrino c with
     | None => true
     | Some n => negb (process n)
     end.

(** The one-shot listener registered with [once('exit', exitHandler)]. *)
Definition once_exit (c : Controller) : Controller :=
  match neutrino c with
  | Some n =>
      if exitHandler n
      then run_exitHandler (set_neutrino (Some (set_exitHandler false n)) c)
      else c
  | None => c
  end.

Definition elapse (d : nat) (c : Controller) : Controller :=
  match shutdownTimeout c with
  | Some deadline =>
      if (deadline <=? now c + d)%nat
      then set_now (now c + d)
             (run_shutdownTimeout
                (set_shutdownTimeout None (set_now (Nat.max (now c) deadline) c)))
      else set_now (now c + d) c
  | None => set_now (now c + d) c
  end.

(** *** The listeners of 'exit'

    [startNeutrino] registers a listener of 'exit' on every Neutrino object
    (it is written out here, before the loop of a shutdown, which runs it):
    while the state is 'running' or 'connected' it shows a dialog and calls
    [this.terminate()].  A shutdown that waits has its one-shot [exitHandler]
    registered after it.  Like every transition here, the [terminate] of the
    first listener runs to the end of its callbacks; the timer and the promise
    that the controller records are then those of the shutdown it started. *)

(** [this.is(s)] *)
Definition is_state (s : State) (c : Controller) : bool := State_eqb (state c) s.

Definition showMessageBox (text : string) : M unit :=
  modify (λ c, set_dialogs (dialogs c ++ [text]) c).

(** [this.shutdownNeutrino()] once lnd has exited: no further 'exit' reaches
    it, so that it waits for its timer.  It is [shutdownNeutrino] below in a
    world where lnd has exited (lemma [shutdownNeutrino_exited]). *)
Definition shutdownNeutrino_after_exit : M unit := λ c,
  if shutdown_guard c
  then (c, Returns tt)
  else (elapse shutdownDelay (shutdown_executor c), Returns tt).

(** [this.terminate()] as the listener of 'exit' calls it, in 'running' or in
    'connected': the row terminate of the state machine, the change of state,
    [onTerminated] and [onTerminate].  It is [transit terminate] below (lemma
    [terminate_after_exit_transit]), written out here for these two states
    because the shutdown that [onTerminated] may start is the one being
    defined. *)
Definition terminate_after_exit : M unit :=
  c ← get;
  let from := state c in
  modify (set_state terminated);;
  (c ← get;
   if State_eqb from connected
      && match lightning c with Some s => can_disconnect s | None => false end
   then lightning_disconnect
   else if State_eqb from running
   then shutdownNeutrino_after_exit
   else mret tt);;
  modify (set_quit true).

(** [this.neutrino.emit('exit', code, signal, lastError)]: the listeners that
    are registered when the event is emitted, in the order of their
    registration. *)
Definition emit_exit (text : string) : M unit :=
  c ← get;
  when (is_state running c || is_state connected c)
    (showMessageBox ("Lnd has unexpectedly quit:" +:+ text);;
     detached terminate_after_exit);;
  when (match neutrino c with Some n => exitHandler n | None => false end)
    (modify once_exit).

(** What the event loop delivers while a shutdown is pending. *)
Inductive LoopEvent :=
| ProcessExit (text : string)   (* the Neutrino object emits 'exit' *)
| Elapse (d : nat).             (* d milliseconds go by *)

Definition loop_step (ev : LoopEvent) (c : Controller) : Controller :=
  match ev with
  | ProcessExit text => (emit_exit text c).1
  | Elapse d => elapse d c
  end.

Definition run_loop (evs : list LoopEvent) (c : Controller) : Controller :=
  fold_left (λ c ev, loop_step ev c) evs c.

(** The events up to the moment the promise of a shutdown is settled, when lnd
    exits [t] ms after it was asked to, or never. *)
Definition until_settled (exit_after : option nat) (text : string) : list LoopEvent :=
  match exit_after with
  | Some t =>
      if (t <? shutdownDelay)%nat
      then [Elapse t; ProcessExit text]
      else [Elapse shutdownDelay]
  | None => [Elapse shutdownDelay]
  end.

Definition shutdownNeutrino (w : World) : M unit := λ c,
  if shutdown_guard c
  then (c, Returns tt)
  else (run_loop (until_settled (exitAfter w) (exitDetails w)) (shutdown_executor c),
        Returns tt).

(** ** Starting lnd *)

(** Modelled from the spec: [neutrino.start()] "spawns a local process" and
    "fails with SpawnError if the executable/working directory is unusable". *)
Definition neutrino_start (r : StartResult) : M unit := λ c,
  match r with
  | Starts =>
      (set_neutrino
         ((λ n, {| process := true; kills := kills n; exitHandler := exitHandler n |})
            <$> neutrino c) c,
       Returns tt)
  | FailsToStart => (c, Throws SpawnError)
  end.

(** The listeners it attaches are [neutrino_on] below. *)
Definition startNeutrino (w : World) : M unit :=
  modify (λ c, set_spawned (S (spawned c)) (set_neutrino (Some new_Neutrino) c));;
  neutrino_start (neutrinoStart w).

(** ** The callbacks of the state machine *)

Definition onOnboarding (lifecycle : Lifecycle) (w : World) : M unit :=
  _removeIpcListeners;;
  _registerIpcListeners;;
  c ← get;
  (if State_eqb (l_from lifecycle) connected
      && match lightning c with Some s => can_disconnect s | None => false end
   then lightning_disconnect
   else if State_eqb (l_from lifecycle) running
   then shutdownNeutrino w
   else mret tt);;
  (* new Promise(resolve => setTimeout(resolve, 200)) *)
  modify (elapse 200).

Definition onStartOnboarding : M unit :=
  c ← get;
  sendMessage "startOnboarding" (DConfig (lndConfig c)).

Definition onBeforeStartLnd (w : World) : M unit :=
  startNeutrino w.

Definition no_errors : Errors := {| host := None; cert := None; macaroon := None |}.
Definition set_host (v : string) (e : Errors) : Errors :=
  {| host := Some v; cert := cert e; macaroon := macaroon e |}.
Definition set_cert (v : string) (e : Errors) : Errors :=
  {| host := host e; cert := Some v; macaroon := macaroon e |}.
Definition set_macaroon (v : string) (e : Errors) : Errors :=
  {| host := host e; cert := cert e; macaroon := Some v |}.

Definition onBeforeConnectLnd (w : World) : M unit :=
  try_catch
    (startLightningWallet w;;
     sendMessage "walletConnected" DUndefined)
    (λ e,
       let errors := no_errors in
       let errors :=
         if Code_eqb (exn_code e) (CodeString "LND_GRPC_HOST_ERROR")
         then set_host (exn_message e) errors
         else errors in
       let errors :=
         if Code_eqb (exn_code e) (CodeString "LND_GRPC_CERT_ERROR")
         then set_cert (exn_message e) errors
         else if Code_eqb (exn_code e) (CodeString "LND_GRPC_MACAROON_ERROR")
         then set_macaroon (exn_message e) errors
         else errors in
       if Code_eqb (exn_code e) (CodeNumber 12)
       then startWalletUnlocker w
       else
         let errors :=
           set_host ("Unable to connect to host: "
                     +:+ or_else (exn_details e) (exn_message e)) errors in
         sendMessage "startLndError" (DErrors errors);;
         throw e).

Definition onTerminated (lifecycle : Lifecycle) (w : World) : M unit :=
  c ← get;
  if State_eqb (l_from lifecycle) connected
     && match lightning c with Some s => can_disconnect s | None => false end
  then lightning_disconnect
  else if State_eqb (l_from lifecycle) running
  then shutdownNeutrino w
  else mret tt.

Definition onTerminate : M unit :=
  modify (set_quit true).

(** ** Taking a transition

    [transit] of javascript-state-machine 3 with the callbacks the class
    defines: onBefore<Transition>, then the change of state, then on<State>,
    then on<Transition>.  A transition with no row for the current state
    throws and changes nothing.  A callback that throws, or whose promise
    rejects, ends the lifecycle there: before the change of state the
    transition is cancelled.  The callbacks of leaving and entering are skipped
    when the state does not change. *)

Definition onBefore (t : Transition) (w : World) : M unit :=
  match t with
  | startLnd => onBeforeStartLnd w
  | connectLnd => onBeforeConnectLnd w
  | _ => mret tt
  end.

Definition onState (lifecycle : Lifecycle) (w : World) : M unit :=
  match l_to lifecycle with
  | onboarding => onOnboarding lifecycle w
  | terminated => onTerminated lifecycle w
  | _ => mret tt
  end.

Definition onAfter (t : Transition) : M unit :=
  match t with
  | startOnboarding => onStartOnboarding
  | terminate => onTerminate
  | _ => mret tt
  end.

Definition transit (t : Transition) (w : World) : M unit :=
  c ← get;
  match transitionFor (state c) t with
  | None => throw (InvalidTransition t (state c))
  | Some s =>
      let lifecycle := {| l_transition := t; l_from := state c; l_to := s |} in
      let changed := negb (State_eqb (state c) s) in
      onBefore t w;;
      when changed (modify (set_state s));;
      when changed (onState lifecycle w);;
      onAfter t
  end.

(** ** The listeners of the Neutrino object, attached by [startNeutrino] *)

Inductive NeutrinoEvent :=
| error (e : string)
| exit (text : string)
| wallet_unlocker_grpc_active
| chain_sync_waiting
| chain_sync_started
| chain_sync_finished
| got_current_block_height (height : Z)
| got_lnd_block_height (height : Z)
| got_lnd_cfilter_height (height : Z).

(** The process has exited: it will emit no further 'exit'. *)
Definition exited (w : World) : World :=
  {| lightningConnect := lightningConnect w; unlockerConnect := unlockerConnect w;
     neutrinoStart := neutrinoStart w; exitAfter := None;
     exitDetails := exitDetails w |}.

Definition neutrino_on (ev : NeutrinoEvent) (w : World) : M unit :=
  match ev with
  | error e => showMessageBox ("lnd error: " +:+ e)
  | exit text =>
      (* the listeners registered when the event is emitted, in order *)
      c ← get;
      when (is_state running c || is_state connected c)
        (showMessageBox ("Lnd has unexpectedly quit:" +:+ text);;
         detached (transit terminate (exited w)));;
      when (match neutrino c with Some n => exitHandler n | None => false end)
        (modify once_exit)
  | wallet_unlocker_grpc_active => detached (startWalletUnlocker w)
  | chain_sync_waiting => sendMessage "lndSyncStatus" (DString "waiting")
  | chain_sync_started => sendMessage "lndSyncStatus" (DString "in-progress")
  | chain_sync_finished => sendMessage "lndSyncStatus" (DString "complete")
  | got_current_block_height height => sendMessage "currentBlockHeight" (DNumber height)
  | got_lnd_block_height height => sendMessage "lndBlockHeight" (DNumber height)
  | got_lnd_cfilter_height height => sendMessage "lndCfilterHeight" (DNumber height)
  end.

(** ** Onboarding, the messages of the renderer and the runs of the controller *)

Section Runs.

Variable SETTINGS_PROPS : ConnectionType → list string.

(** [lndConfig.save()] *)
Definition save : M unit :=
  modify (λ c, set_savedConfig (Some (lndConfig c)) c).

Definition finishOnboarding (options : onboardingOptions) (w : World) : M unit :=
  λ c,
  match LndConfig_new SETTINGS_PROPS
          {| type := o_type options;
             currency := "bitcoin";
             network := "testnet";
             wallet := "wallet-1";
             settings := pick (o_fields options) (SETTINGS_PROPS (o_type options)) |}
  with
  | inl e => (c, Throws e)
  | inr config =>
      (modify (set_lndConfig config);;
       save;;
       modify (λ c, set_activeConnection
                      (Some {| ac_type := type (lndConfig c);
                               ac_currency := currency (lndConfig c);
                               ac_network := network (lndConfig c);
                               ac_wallet := wallet (lndConfig c) |}) c);;
       modify (λ c, set_cipherSuites
                      (Some (or_else (cipherSuites c)
                                     (grpcSslCipherSuites (o_type options)))) c);;
       if ConnectionType_eqb (o_type options) local
       then transit startLnd w
       else transit connectLnd w) c
  end.

(** What reaches the controller from outside. *)
Inductive Event :=
| Call (t : Transition)                          (* this.startOnboarding(), ... *)
| IpcStartLnd (options : onboardingOptions)      (* ipcMain 'startLnd' *)
| IpcStartLightningWallet                        (* ipcMain 'startLightningWallet' *)
| Emit (ev : NeutrinoEvent)                      (* an event of this.neutrino *)
| Closed.                                        (* mainWindow 'closed' *)

(** [ipcMain.emit(channel, ...)]: every listener of the channel runs. *)
Definition ipcMain_emit (channel : string) (listener : M unit) : M unit :=
  c ← get;
  foldr (λ _ rest, detached listener;; rest) (mret tt)
        (List.filter (λ ch, bool_decide (ch = channel)) (ipcListeners c)).

Definition handle (ev : Event) (w : World) : M unit :=
  match ev with
  | Call t => transit t w
  | IpcStartLnd options => ipcMain_emit "startLnd" (finishOnboarding options w)
  | IpcStartLightningWallet => ipcMain_emit "startLightningWallet" (startLightningWallet w)
  | Emit ev =>
      c ← get;
      match neutrino c with
      | Some _ => neutrino_on ev w
      | None => mret tt
      end
  | Closed => modify (set_mainWindow false)
  end.

Definition step (c : Controller) (e : Event * World) : Controller :=
  (handle e.1 e.2 c).1.

Definition run (es : list (Event * World)) (c : Controller) : Controller :=
  fold_left step es c.

(** The controller built by [new ZapController(mainWindow)]: [config] is what
    [lndConfig.load()] finds, [env] the value of GRPC_SSL_CIPHER_SUITES the
    process was started with. *)
Definition constructor (config : LndConfig) (env : option string) : Controller :=
  {| state := none; mainWindow := true; outbox := []; lndConfig := config;
     lightning := None; walletUnlocker := None; neutrino := None;
     ipcListeners := []; cipherSuites := env; savedConfig := None;
     activeConnection := None; now := 0; shutdownTimeout := None;
     shutdownResolved := None; dialogs := []; quit := false; spawned := 0 |}.

Inductive reachable : Controller → Prop :=
| reachable_constructor config env : reachable (constructor config env)
| reachable_step c e : reachable c → reachable (step c e).

(** Both sessions are open. *)
Definition both_open (c : Controller) : bool :=
  match lightning c, walletUnlocker c with
  | Some l, Some u => open l && open u
  | _, _ => false
  end.

(** The profile [finishOnboarding] builds from its options. *)
Definition profile_of (options : onboardingOptions) : LndConfig :=
  {| type := o_type options;
     currency := "bitcoin";
     network := "testnet";
     wallet := "wallet-1";
     settings := pick (o_fields options) (SETTINGS_PROPS (o_type options)) |}.

(** What [finishOnboarding] has done when it reaches the transition. *)
Definition onboarded (options : onboardingOptions) (c : Controller) : Controller :=
  set_cipherSuites
    (Some (or_else (cipherSuites c) (grpcSslCipherSuites (o_type options))))
    (set_activeConnection
       (Some {| ac_type := o_type options; ac_currency := "bitcoin";
                ac_network := "testnet"; ac_wallet := "wallet-1" |})
       (set_savedConfig (Some (profile_of options))
          (set_lndConfig (profile_of options) c))).

End Runs.

(** ** Relations between the controller before and after a method *)

(** [respects R m]: the controller a method leaves behind is [R]-related to
    the one it started from, whether it returned or threw. *)
Definition respects {A} (R : relation Controller) (m : M A) : Prop :=
  ∀ c, R c (m c).1.

(** The relations used below.  Most methods leave these alone: the
    cipher-suite variable, the count of Neutrino objects, the state of the
    state machine, the connection profile and what is persisted of it. *)
Definition same_cipherSuites : relation Controller :=
  λ c c', cipherSuites c' = cipherSuites c.

Definition same_profile : relation Controller :=
  λ c c', lndConfig c' = lndConfig c ∧ savedConfig c' = savedConfig c
          ∧ activeConnection c' = activeConnection c.

Definition untouched : relation Controller :=
  λ c c', cipherSuites c' = cipherSuites c ∧ spawned c' = spawned c ∧ state c' = state c
          ∧ same_profile c c'.

(** Unless the controller is in 'onboarding', it does not get there and no
    Neutrino object is created. *)
Definition no_new_supervisor : relation Controller :=
  λ c c', state c ≠ onboarding → state c' ≠ onboarding ∧ spawned c' = spawned c.

(** The variable holds a value that [a || b] keeps. *)
Definition externally_set (a : option string) : bool :=
  match a with
  | Some s => truthy s
  | None => false
  end.

(** The variable is as it was, or it held nothing to keep and now holds one
    of the two lists. *)
Definition written_once : relation Controller :=
  λ c c', cipherSuites c' = cipherSuites c
          ∨ (externally_set (cipherSuites c) = false
             ∧ ∃ t, cipherSuites c' = Some (grpcSslCipherSuites t)).

(** ** The states of a shutdown *)

(** An exit of lnd is expected: the controller has left 'running' and
    'connected', where the 'exit' listener of [startNeutrino] does nothing.
    This is how [onOnboarding] and [onTerminated], which run after the change
    of state, find the controller when they call [shutdownNeutrino]. *)
Definition exit_expected (c : Controller) : Prop :=
  state c ≠ running ∧ state c ≠ connected.

(** A shutdown is pending: the timer runs, the one-shot listener is there and
    the promise is not settled. *)
Definition pending (deadline : nat) (n : Neutrino) (c : Controller) : Prop :=
  shutdownTimeout c = Some deadline
  ∧ shutdownResolved c = None
  ∧ neutrino c = Some n
  ∧ exitHandler n = true
  ∧ (now c ≤ deadline)%nat.

(** A shutdown is settled: the promise resolved at [r], no timer runs and the
    one-shot listener is gone. *)
Definition settled (r : nat) (n : Neutrino) (c : Controller) : Prop :=
  shutdownTimeout c = None
  ∧ shutdownResolved c = Some r
  ∧ neutrino c = Some n
  ∧ exitHandler n = false.

(** ** Concrete profiles, worlds and controllers *)

(** Modelled from the spec: a table for [LndConfig.SETTINGS_PROPS], used by
    the concrete runs only ("local requires alias/autopilot-flag; custom
    requires host/cert-path/macaroon-path; hostedService requires host"). *)
Definition settings_props (t : ConnectionType) : list string :=
  match t with
  | local => ["alias"; "autopilot"]
  | custom => ["host"; "cert"; "macaroon"]
  | btcpayserver => ["host"]
  end.

Definition local_options : onboardingOptions :=
  {| o_type := local;
     o_fields := <["alias" := VString "node1"]> (<["autopilot" := VBool true]> ∅) |}.

Definition custom_options : onboardingOptions :=
  {| o_type := custom;
     o_fields := <["host" := VString "h"]>
                   (<["cert" := VString "c"]> (<["macaroon" := VString "m"]> ∅)) |}.

Definition no_config : LndConfig :=
  {| type := local; currency := EmptyString; network := EmptyString;
     wallet := EmptyString; settings := ∅ |}.

(** A world in which everything works and lnd exits 5 ms after SIGINT. *)
Definition fair_world : World :=
  {| lightningConnect := Connects; unlockerConnect := Connects;
     neutrinoStart := Starts; exitAfter := Some 5;
     exitDetails := " code 0, signal SIGINT" |}.

Definition world_with (l u : ConnectResult) : World :=
  {| lightningConnect := l; unlockerConnect := u;
     neutrinoStart := Starts; exitAfter := None; exitDetails := EmptyString |}.

(** The controller once the splash screen is over. *)
Definition at_onboarding (env : option string) : Controller :=
  run settings_props [(Call startOnboarding, fair_world)] (constructor no_config env).

(** ** What the methods leave alone, and what they keep *)

(** The shutdown of lnd, the disconnection of the wallet and the passing of
    time leave all of this as it is: the state, the window, what was sent, the
    profile, the unlocker, the IPC listeners, the dialogs and [app.quit()]; the
    Neutrino and Lightning objects stay (they may change inside), and the
    clock does not go back. *)
Definition undisturbed : relation Controller := λ c c',
  state c' = state c ∧ mainWindow c' = mainWindow c ∧ outbox c' = outbox c
  ∧ lndConfig c' = lndConfig c ∧ walletUnlocker c' = walletUnlocker c
  ∧ ipcListeners c' = ipcListeners c ∧ dialogs c' = dialogs c ∧ quit c' = quit c
  ∧ spawned c' = spawned c
  ∧ (neutrino c' = None ↔ neutrino c = None)
  ∧ (lightning c' = None ↔ lightning c = None)
  ∧ (now c ≤ now c')%nat.

(** Once the window is closed it stays closed and nothing more is sent. *)
Definition silent : relation Controller :=
  λ c c', mainWindow c = false → mainWindow c' = false ∧ outbox c' = outbox c.

(** The objects the controller holds are replaced, never dropped. *)
Definition kept : relation Controller := λ c c',
  (is_Some (neutrino c) → is_Some (neutrino c'))
  ∧ (is_Some (lightning c) → is_Some (lightning c'))
  ∧ (is_Some (walletUnlocker c) → is_Some (walletUnlocker c'))
  ∧ (spawned c ≤ spawned c')%nat.

(** How many listeners [ipcMain] has on a channel. *)
Definition listeners (channel : string) (c : Controller) : nat :=
  length (List.filter (λ ch, bool_decide (ch = channel)) (ipcListeners c)).

(** The listeners after [_removeIpcListeners] and [_registerIpcListeners]. *)
Definition fresh_listeners (l : list string) : list string :=
  (List.filter (λ ch, negb (bool_decide (ch = "lnd")))
     (List.filter (λ ch, negb (bool_decide (ch = "walletUnlocker")))
        (List.filter (λ ch, negb (bool_decide (ch = "startLightningWallet")))
           (List.filter (λ ch, negb (bool_decide (ch = "startLnd"))) l)))
   ++ ["startLnd"]) ++ ["startLightningWallet"].

(** The session, if there is one, is not open. *)
Definition closed (s : option Session) : Prop :=
  match s with Some s => open s = false | None => True end.

(** lnd exits before the deadline of a shutdown. *)
Definition exits_in_time (w : World) : bool :=
  match exitAfter w with
  | Some t => (t <? shutdownDelay)%nat
  | None => false
  end.

(** At most one listener for each of the two messages of onboarding. *)
Definition single_listeners (c : Controller) : Prop :=
  (listeners "startLnd" c ≤ 1)%nat ∧ (listeners "startLightningWallet" c ≤ 1)%nat.

Definition stays_single : relation Controller :=
  λ c c', single_listeners c → single_listeners c'.

(** The objects the states 'running' and 'connected' rely on. *)
Definition objects_exist (c : Controller) : Prop :=
  (state c = running → is_Some (neutrino c))
  ∧ (state c = connected → is_Some (lightning c)).

Definition stay_existing : relation Controller :=
  λ c c', objects_exist c → objects_exist c'.

(** [app.quit()] has not been called in between. *)
Definition same_quit : relation Controller := λ c c', quit c' = quit c.

(** No shutdown is pending: its timer is not set and its one-shot 'exit'
    listener is not registered. *)
Definition idle (c : Controller) : Prop :=
  shutdownTimeout c = None ∧ ∀ n, neutrino c = Some n → exitHandler n = false.

Definition stays_idle : relation Controller := λ c c', idle c → idle c'.

(** A local node that has been started, and a remote node that is connected. *)
Definition running_locally : Controller :=
  (finishOnboarding settings_props local_options fair_world (at_onboarding None)).1.

Definition connected_remotely : Controller :=
  (finishOnboarding settings_props custom_options fair_world (at_onboarding None)).1.

(** * Properties *)

(** ** General lemmas *)

Lemma filter_nil_iff {A} (f : A → bool) (l : list A) :
  List.filter f l = [] ↔ ∀ x, x ∈ l → f x = false.
Proof.
  induction l as [|a l IH]; simpl.
  - split; [intros _ x Hx; inversion Hx | done].
  - destruct (f a) eqn:Ha.
    + split; [done | intros H; specialize (H a (list_elem_of_here _ _)); congruence].
    + rewrite IH. split.
      * intros H x Hx. apply elem_of_cons in Hx as [->|Hx]; auto.
      * intros H x Hx. apply H. by apply list_elem_of_further.
Qed.

Lemma elem_of_filter_bool {A} (f : A → bool) (l : list A) (x : A) :
  x ∈ List.filter f l ↔ x ∈ l ∧ f x = true.
Proof. rewrite !list_elem_of_In. apply List.filter_In. Qed.

Lemma truthy_grpcSslCipherSuites t : truthy (grpcSslCipherSuites t) = true.
Proof. by destruct t. Qed.

(** ** The connection profile *)

Section ProfileFacts.

Variable SETTINGS_PROPS : ConnectionType → list string.

Lemma missing_keys_spec t (s : gmap string Value) k :
  k ∈ missing_keys SETTINGS_PROPS t s ↔ k ∈ SETTINGS_PROPS t ∧ k ∉ dom s.
Proof.
  unfold missing_keys. rewrite elem_of_filter_bool, bool_decide_eq_true.
  by rewrite not_elem_of_dom.
Qed.

Lemma extra_keys_spec t (s : gmap string Value) k :
  k ∈ extra_keys SETTINGS_PROPS t s ↔ k ∈ dom s ∧ k ∉ SETTINGS_PROPS t.
Proof.
  unfold extra_keys. rewrite elem_of_filter_bool, bool_decide_eq_true.
  by rewrite elem_of_elements.
Qed.

Lemma no_offending_keys t (s : gmap string Value) :
  missing_keys SETTINGS_PROPS t s = [] ∧ extra_keys SETTINGS_PROPS t s = []
  ↔ dom s = list_to_set (SETTINGS_PROPS t).
Proof.
  split.
  - intros [Hm He]. apply set_eq. intros k. rewrite elem_of_list_to_set. split.
    + intros Hk. destruct (decide (k ∈ SETTINGS_PROPS t)) as [|Hn]; [done|].
      assert (k ∈ extra_keys SETTINGS_PROPS t s) as Hin by by apply extra_keys_spec.
      rewrite He in Hin. inversion Hin.
    + intros Hk. destruct (decide (k ∈ dom s)) as [|Hn]; [done|].
      assert (k ∈ missing_keys SETTINGS_PROPS t s) as Hin by by apply missing_keys_spec.
      rewrite Hm in Hin. inversion Hin.
  - intros Hdom. split.
    + destruct (missing_keys SETTINGS_PROPS t s) as [|k l] eqn:E; [done|].
      assert (k ∈ missing_keys SETTINGS_PROPS t s) as Hin by (rewrite E; left).
      apply missing_keys_spec in Hin as [Hk Hn]. exfalso. apply Hn.
      rewrite Hdom. by apply elem_of_list_to_set.
    + destruct (extra_keys SETTINGS_PROPS t s) as [|k l] eqn:E; [done|].
      assert (k ∈ extra_keys SETTINGS_PROPS t s) as Hin by (rewrite E; left).
      apply extra_keys_spec in Hin as [Hk Hn]. exfalso. apply Hn.
      rewrite Hdom in Hk. by apply elem_of_list_to_set in Hk.
Qed.

(** C6. For each of the three connection types, building a connection profile
    succeeds exactly when the keys of the settings it is given are the keys
    required for the type; otherwise it fails with a ConfigValidationError
    that lists every required key that is absent and every key that is not
    required, at least one of them. *)
Theorem LndConfig_new_exact_keys (o : LndConfig) :
  (LndConfig_new SETTINGS_PROPS o = inr o
   ↔ dom (settings o) = list_to_set (SETTINGS_PROPS (type o)))
  ∧ (dom (settings o) ≠ list_to_set (SETTINGS_PROPS (type o)) →
     ∃ missing extra,
       LndConfig_new SETTINGS_PROPS o = inl (ConfigValidationError missing extra)
       ∧ (missing ≠ [] ∨ extra ≠ [])
       ∧ (∀ k, k ∈ missing ↔ k ∈ SETTINGS_PROPS (type o) ∧ k ∉ dom (settings o))
       ∧ (∀ k, k ∈ extra ↔ k ∈ dom (settings o) ∧ k ∉ SETTINGS_PROPS (type o))).
Proof.
  pose proof (no_offending_keys (type o) (settings o)) as Hk.
  split.
  - rewrite <- Hk. unfold LndConfig_new.
    destruct (missing_keys _ _ _) as [|m ms], (extra_keys _ _ _) as [|x xs];
      split; try done; intros [? ?]; done.
  - intros Hne.
    exists (missing_keys SETTINGS_PROPS (type o) (settings o)),
           (extra_keys SETTINGS_PROPS (type o) (settings o)).
    split; [|split; [|split]].
    + unfold LndConfig_new.
      destruct (missing_keys _ _ _) as [|m ms] eqn:Em,
               (extra_keys _ _ _) as [|x xs] eqn:Ex; try done.
      exfalso. apply Hne, Hk. done.
    + destruct (missing_keys _ _ _) as [|m ms] eqn:Em; [|by left].
      destruct (extra_keys _ _ _) as [|x xs] eqn:Ex; [|by right].
      exfalso. apply Hne, Hk. done.
    + intros k. apply missing_keys_spec.
    + intros k. apply extra_keys_spec.
Qed.

(** The settings [finishOnboarding] hands to the constructor come out of
    [pick]: they never hold a key that is not required, and they lack a
    required key exactly when the options lack it. *)
Lemma pick_no_extra_keys t (fields : gmap string Value) :
  extra_keys SETTINGS_PROPS t (pick fields (SETTINGS_PROPS t)) = [].
Proof.
  apply filter_nil_iff. intros k Hk. apply bool_decide_eq_false. intros Hn.
  apply elem_of_elements, elem_of_dom in Hk as [v Hv].
  unfold pick in Hv. apply map_lookup_filter_Some in Hv as [_ Hin]. by apply Hn.
Qed.

Lemma pick_missing_keys t (fields : gmap string Value) :
  missing_keys SETTINGS_PROPS t (pick fields (SETTINGS_PROPS t)) = []
  ↔ ∀ k, k ∈ SETTINGS_PROPS t → is_Some (fields !! k).
Proof.
  unfold missing_keys. rewrite filter_nil_iff. split.
  - intros H k Hk. specialize (H k Hk). apply bool_decide_eq_false in H.
    destruct (pick fields (SETTINGS_PROPS t) !! k) as [v|] eqn:E; [|done].
    unfold pick in E. apply map_lookup_filter_Some in E as [E _]. eauto.
  - intros H k Hk. apply bool_decide_eq_false. destruct (H k Hk) as [v Hv].
    assert (pick fields (SETTINGS_PROPS t) !! k = Some v) as ->; [|done].
    unfold pick. apply map_lookup_filter_Some. done.
Qed.

End ProfileFacts.

(** ** What a method leaves alone *)

Section Respects.

Variable R : relation Controller.
Hypothesis R_refl : ∀ c, R c c.
Hypothesis R_trans : ∀ c1 c2 c3, R c1 c2 → R c2 c3 → R c1 c3.

Lemma respects_ret {A} (a : A) : respects R (mret a).
Proof. intros c. apply R_refl. Qed.

Lemma respects_throw {A} (e : Exn) : respects R (throw e : M A).
Proof. intros c. apply R_refl. Qed.

Lemma respects_get : respects R get.
Proof. intros c. apply R_refl. Qed.

Lemma respects_modify (f : Controller → Controller) :
  (∀ c, R c (f c)) → respects R (modify f).
Proof. intros H c. apply H. Qed.

Lemma respects_bind {A B} (m : M A) (k : A → M B) :
  respects R m → (∀ a, respects R (k a)) → respects R (m ≫= k).
Proof.
  intros Hm Hk c. unfold mbind, M_bind. specialize (Hm c).
  destruct (m c) as [c1 [a|e]]; simpl in *; [|done].
  eapply R_trans; [exact Hm | apply Hk].
Qed.

Lemma respects_try_catch {A} (m : M A) (h : Exn → M A) :
  respects R m → (∀ e, respects R (h e)) → respects R (try_catch m h).
Proof.
  intros Hm Hh c. unfold try_catch. specialize (Hm c).
  destruct (m c) as [c1 [a|e]]; simpl in *; [done|].
  eapply R_trans; [exact Hm | apply Hh].
Qed.

Lemma respects_detached (m : M unit) : respects R m → respects R (detached m).
Proof. intros Hm. apply respects_try_catch; [done | intros _; apply respects_ret]. Qed.

Lemma respects_when (b : bool) (m : M unit) : respects R m → respects R (when b m).
Proof. intros Hm. destruct b; [done | apply respects_ret]. Qed.

Lemma respects_foldr {A} (l : list A) (m : M unit) :
  respects R m → respects R (foldr (λ _ rest, detached m;; rest) (mret tt) l).
Proof.
  intros Hm. induction l as [|a l IH]; simpl.
  - apply respects_ret.
  - apply respects_bind; [by apply respects_detached | by intros _].
Qed.

Lemma respects_fold_left {E} (stp : Controller → E → Controller) (es : list E) :
  (∀ c e, R c (stp c e)) → ∀ c, R c (fold_left stp es c).
Proof.
  intros H. induction es as [|e es IH]; simpl; intros c; [apply R_refl|].
  eapply R_trans; [apply H | apply IH].
Qed.

End Respects.

Lemma untouched_refl c : untouched c c.
Proof. done. Qed.
Lemma untouched_trans c1 c2 c3 : untouched c1 c2 → untouched c2 c3 → untouched c1 c3.
Proof.
  unfold untouched, same_profile. intros (?&?&?&?&?&?) (?&?&?&?&?&?).
  repeat split; congruence.
Qed.
Lemma same_cipherSuites_refl c : same_cipherSuites c c.
Proof. done. Qed.
Lemma same_cipherSuites_trans c1 c2 c3 :
  same_cipherSuites c1 c2 → same_cipherSuites c2 c3 → same_cipherSuites c1 c3.
Proof. unfold same_cipherSuites. congruence. Qed.

Lemma respects_untouched_cipherSuites {A} (m : M A) :
  respects untouched m → respects same_cipherSuites m.
Proof. intros H c. by destruct (H c) as (?&?&?&?). Qed.
Lemma respects_untouched_profile {A} (m : M A) :
  respects untouched m → respects same_profile m.
Proof. intros H c. by destruct (H c) as (?&?&?&?). Qed.
Lemma same_profile_refl c : same_profile c c.
Proof. done. Qed.
Lemma same_profile_trans c1 c2 c3 :
  same_profile c1 c2 → same_profile c2 c3 → same_profile c1 c3.
Proof. unfold same_profile. intros (?&?&?) (?&?&?). repeat split; congruence. Qed.

Lemma no_new_supervisor_refl c : no_new_supervisor c c.
Proof. by intros H. Qed.

Lemma no_new_supervisor_trans c1 c2 c3 :
  no_new_supervisor c1 c2 → no_new_supervisor c2 c3 → no_new_supervisor c1 c3.
Proof.
  intros H12 H23 H1. destruct (H12 H1) as [H2 E2]. destruct (H23 H2) as [H3 E3].
  split; congruence.
Qed.

Lemma untouched_no_new_supervisor c c' : untouched c c' → no_new_supervisor c c'.
Proof. intros (_ & Hsp & Hst & _) H. rewrite Hst. done. Qed.

Lemma untouched_same_cipherSuites c c' : untouched c c' → same_cipherSuites c c'.
Proof. by intros (? & _). Qed.

Lemma respects_untouched_no_new_supervisor {A} (m : M A) :
  respects untouched m → respects no_new_supervisor m.
Proof. intros H c. apply untouched_no_new_supervisor, H. Qed.

Create HintDb frame.

#[local] Hint Resolve no_new_supervisor_refl no_new_supervisor_trans
  respects_untouched_no_new_supervisor respects_untouched_cipherSuites
  respects_untouched_profile same_profile_refl same_profile_trans : frame.

#[local] Hint Resolve untouched_refl untouched_trans same_cipherSuites_refl
  same_cipherSuites_trans : frame.

(** One step of a proof that a method respects a relation: a combinator of
    the monad, a branch of the code, or a method already dealt with. *)
Ltac frame_step :=
  match goal with
  | |- respects _ (mret _) => apply respects_ret
  | |- respects _ (throw _) => apply respects_throw
  | |- respects _ get => apply respects_get
  | |- respects _ (_ ≫= _) => apply respects_bind
  | |- respects _ (try_catch _ _) => apply respects_try_catch
  | |- respects _ (detached _) => apply respects_detached
  | |- respects _ (when _ _) => apply respects_when
  | |- respects _ (modify _) => apply respects_modify
  | |- respects _ (if ?b then _ else _) => destruct b
  | |- respects _ (match ?x with _ => _ end) => destruct x
  | |- ∀ _, _ => intros
  | |- untouched _ _ => by (repeat split; simpl)
  | |- same_profile _ _ => by (repeat split; simpl)
  | |- same_cipherSuites _ _ => by (unfold same_cipherSuites; simpl)
  | |- same_cipherSuites _ _ => apply untouched_same_cipherSuites
  | |- no_new_supervisor _ _ => apply untouched_no_new_supervisor
  end.

Ltac frame := repeat (first [ by eauto with frame | frame_step ]).

Lemma sendMessage_untouched msg data : respects untouched (sendMessage msg data).
Proof. intros c. unfold sendMessage. by destruct (mainWindow c). Qed.

Lemma ipcMain_on_untouched ch : respects untouched (ipcMain_on ch).
Proof. unfold ipcMain_on. frame. Qed.

Lemma ipcMain_removeAllListeners_untouched ch :
  respects untouched (ipcMain_removeAllListeners ch).
Proof. unfold ipcMain_removeAllListeners. frame. Qed.

#[local] Hint Resolve sendMessage_untouched ipcMain_on_untouched
  ipcMain_removeAllListeners_untouched : frame.

Lemma _registerIpcListeners_untouched : respects untouched _registerIpcListeners.
Proof. unfold _registerIpcListeners. frame. Qed.

Lemma _removeIpcListeners_untouched : respects untouched _removeIpcListeners.
Proof. unfold _removeIpcListeners. frame. Qed.

Lemma walletUnlocker_connect_untouched r : respects untouched (walletUnlocker_connect r).
Proof. intros c. unfold walletUnlocker_connect. by destruct (connect _ _). Qed.

Lemma lightning_connect_untouched r : respects untouched (lightning_connect r).
Proof. intros c. unfold lightning_connect. by destruct (connect _ _). Qed.

Lemma lightning_disconnect_untouched : respects untouched lightning_disconnect.
Proof. unfold lightning_disconnect. frame. Qed.

#[local] Hint Resolve _registerIpcListeners_untouched _removeIpcListeners_untouched
  walletUnlocker_connect_untouched lightning_connect_untouched lightning_disconnect_untouched : frame.

Lemma startWalletUnlocker_untouched w : respects untouched (startWalletUnlocker w).
Proof. unfold startWalletUnlocker. frame. Qed.

Lemma startLightningWallet_untouched w : respects untouched (startLightningWallet w).
Proof. unfold startLightningWallet. frame. Qed.

#[local] Hint Resolve startWalletUnlocker_untouched startLightningWallet_untouched : frame.

Lemma resolve_untouched c : untouched c (resolve c).
Proof. unfold resolve. by destruct (shutdownResolved c). Qed.

Lemma once_exit_untouched c : untouched c (once_exit c).
Proof.
  unfold once_exit, run_exitHandler. destruct (neutrino c) as [n|]; [|done].
  destruct (exitHandler n); [|done].
  eapply untouched_trans; [|apply resolve_untouched]. done.
Qed.

Lemma run_shutdownTimeout_untouched c : untouched c (run_shutdownTimeout c).
Proof.
  unfold run_shutdownTimeout. destruct (neutrino c) as [n|]; [|done].
  eapply untouched_trans; [|apply resolve_untouched]. done.
Qed.

Lemma elapse_untouched d c : untouched c (elapse d c).
Proof.
  unfold elapse. destruct (shutdownTimeout c) as [deadline|]; [|done].
  destruct (_ <=? _)%nat; [|done].
  match goal with |- untouched _ (set_now _ (run_shutdownTimeout ?x)) =>
    pose proof (run_shutdownTimeout_untouched x) as (H1&H2&H3&H4&H5&H6) end.
  simpl in *. repeat split; simpl; congruence.
Qed.

Lemma shutdown_executor_untouched c : untouched c (shutdown_executor c).
Proof.
  unfold shutdown_executor. destruct (lightning c) as [s|] eqn:E; simpl; rewrite ?E.
  - by destruct (can_terminate s).
  - done.
Qed.

#[local] Hint Resolve elapse_untouched once_exit_untouched : frame.

Lemma onStartOnboarding_untouched : respects untouched onStartOnboarding.
Proof. unfold onStartOnboarding. frame. Qed.

Lemma onTerminate_untouched : respects untouched onTerminate.
Proof. unfold onTerminate. frame. Qed.

Lemma onBeforeConnectLnd_untouched w : respects untouched (onBeforeConnectLnd w).
Proof. unfold onBeforeConnectLnd. frame. Qed.

Lemma onAfter_untouched t : respects untouched (onAfter t).
Proof.
  pose proof onStartOnboarding_untouched. pose proof onTerminate_untouched.
  unfold onAfter. frame.
Qed.

Lemma showMessageBox_untouched text : respects untouched (showMessageBox text).
Proof. unfold showMessageBox. frame. Qed.

#[local] Hint Resolve onStartOnboarding_untouched onTerminate_untouched
  onBeforeConnectLnd_untouched onAfter_untouched showMessageBox_untouched : frame.

(** ** Where an exit of lnd is expected

    Once the controller has left 'running' and 'connected', the 'exit'
    listener of [startNeutrino] does nothing: an 'exit' runs the one-shot
    listener of the shutdown only.  The callbacks of the state machine call
    [shutdownNeutrino] after the change of state, so that this is where each
    of its calls in a transition starts. *)

Lemma state_expected c c' : state c' = state c → exit_expected c → exit_expected c'.
Proof. unfold exit_expected. by intros ->. Qed.

Lemma entered_expected c s :
  state c = s → s = onboarding ∨ s = terminated → exit_expected c.
Proof. unfold exit_expected. intros -> [->| ->]; done. Qed.

(** The controller has just entered 'onboarding' or 'terminated'. *)
Ltac entered := split; simpl; discriminate.

Lemma emit_exit_expected text c :
  exit_expected c → emit_exit text c = (once_exit c, Returns tt).
Proof.
  intros [H1 H2]. unfold emit_exit, is_state. cbv [mbind M_bind get].
  assert (State_eqb (state c) running = false) as ->
    by (destruct (state c); simpl; congruence).
  assert (State_eqb (state c) connected = false) as ->
    by (destruct (state c); simpl; congruence).
  simpl. unfold once_exit. destruct (neutrino c) as [n|] eqn:E; [|done].
  destruct (exitHandler n) eqn:E'; [|done].
  cbv [when modify]. by rewrite E, E'.
Qed.

Lemma loop_step_expected ev c :
  exit_expected c →
  loop_step ev c = match ev with ProcessExit _ => once_exit c | Elapse d => elapse d c end.
Proof. intros H. destruct ev as [text|d]; simpl; [|done]. by rewrite emit_exit_expected. Qed.

Lemma loop_step_stays_expected ev c : exit_expected c → exit_expected (loop_step ev c).
Proof.
  intros H. rewrite loop_step_expected by done. revert H. apply state_expected.
  destruct ev as [text|d].
  - by destruct (once_exit_untouched c) as (_&_&?&_).
  - by destruct (elapse_untouched d c) as (_&_&?&_).
Qed.

Lemma run_loop_stays_expected evs c : exit_expected c → exit_expected (run_loop evs c).
Proof.
  revert c. induction evs as [|ev evs IH]; intros c H; [done|].
  apply IH, loop_step_stays_expected, H.
Qed.

Lemma shutdownNeutrino_returns w c : ∃ c', shutdownNeutrino w c = (c', Returns tt).
Proof. unfold shutdownNeutrino. destruct (shutdown_guard c); eauto. Qed.

(** [onOnboarding] is [onTerminated] after a fresh start of the IPC listeners,
    and 200 ms. *)
Lemma set_ipcListeners_twice a b c :
  set_ipcListeners a (set_ipcListeners b c) = set_ipcListeners a c.
Proof. by destruct c. Qed.

Lemma onOnboarding_eq l w c :
  onOnboarding l w c
  = (elapse 200
       (onTerminated l w (set_ipcListeners (fresh_listeners (ipcListeners c)) c)).1,
     Returns tt).
Proof.
  unfold onOnboarding, onTerminated, _removeIpcListeners, _registerIpcListeners, ipcMain_on,
    ipcMain_removeAllListeners, fresh_listeners.
  cbv [mbind M_bind modify get]. simpl. rewrite !set_ipcListeners_twice.
  destruct (_ && _); [reflexivity|].
  destruct (State_eqb _ _); [|reflexivity].
  match goal with |- context [shutdownNeutrino w ?x] =>
    destruct (shutdownNeutrino_returns w x) as (c2 & ->) end.
  reflexivity.
Qed.

Section Leaving.

Variable R : relation Controller.
Hypothesis R_refl : ∀ c, R c c.
Hypothesis R_trans : ∀ c1 c2 c3, R c1 c2 → R c2 c3 → R c1 c3.

Section Shutdown.

Hypothesis R_once_exit : ∀ c, R c (once_exit c).
Hypothesis R_elapse : ∀ d c, R c (elapse d c).
Hypothesis R_executor : ∀ c, R c (shutdown_executor c).

Lemma run_loop_expected evs c : exit_expected c → R c (run_loop evs c).
Proof.
  revert c. induction evs as [|ev evs IH]; intros c H; [apply R_refl|].
  simpl. eapply R_trans; [|apply IH, loop_step_stays_expected, H].
  rewrite loop_step_expected by done. destruct ev; auto.
Qed.

Lemma shutdownNeutrino_expected w c : exit_expected c → R c (shutdownNeutrino w c).1.
Proof.
  intros H. unfold shutdownNeutrino. destruct (shutdown_guard c); simpl; [apply R_refl|].
  eapply R_trans; [apply R_executor | apply run_loop_expected].
  revert H. apply state_expected. by destruct (shutdown_executor_untouched c) as (_&_&?&_).
Qed.

End Shutdown.

Hypothesis R_shutdown : ∀ w c, exit_expected c → R c (shutdownNeutrino w c).1.
Hypothesis R_disconnect : respects R lightning_disconnect.
Hypothesis R_fresh : ∀ c, R c (set_ipcListeners (fresh_listeners (ipcListeners c)) c).
Hypothesis R_wait : ∀ c, R c (elapse 200 c).

(** What [onOnboarding] and [onTerminated] do with the session and with lnd. *)
Lemma leaving_expected (b1 b2 : bool) w c :
  exit_expected c →
  ∃ c', (if b1 then lightning_disconnect else if b2 then shutdownNeutrino w else mret tt) c
        = (c', Returns tt) ∧ R c c'.
Proof.
  intros H. destruct b1; [|destruct b2].
  - eexists. split; [reflexivity|]. apply R_disconnect.
  - destruct (shutdownNeutrino_returns w c) as [c' E]. exists c'. split; [done|].
    pose proof (R_shutdown w c H) as H'. by rewrite E in H'.
  - exists c. split; [done | apply R_refl].
Qed.

Lemma onTerminated_returns l w c :
  exit_expected c → ∃ c', onTerminated l w c = (c', Returns tt) ∧ R c c'.
Proof.
  intros H. unfold onTerminated. cbv [mbind M_bind get].
  match goal with |- context [(if ?b1 then _ else if ?b2 then _ else _) c] =>
    exact (leaving_expected b1 b2 w c H) end.
Qed.

Lemma onTerminated_expected l w c : exit_expected c → R c (onTerminated l w c).1.
Proof. intros H. by destruct (onTerminated_returns l w c H) as (c' & -> & H'). Qed.

Lemma onOnboarding_expected l w c : exit_expected c → R c (onOnboarding l w c).1.
Proof.
  intros H. rewrite onOnboarding_eq. cbn [fst].
  eapply R_trans; [apply R_fresh|]. eapply R_trans; [|apply R_wait].
  apply onTerminated_expected. revert H. by apply state_expected.
Qed.

Lemma onState_entered l w c : state c = l_to l → R c (onState l w c).1.
Proof.
  intros H. unfold onState. destruct (l_to l) eqn:E; try apply R_refl.
  - apply onOnboarding_expected. eapply entered_expected; eauto.
  - apply onTerminated_expected. eapply entered_expected; eauto.
Qed.

End Leaving.

(** A transition changes the state before it runs the callback of the state
    it enters. *)
Section Transit.

Variable R : relation Controller.
Hypothesis R_refl : ∀ c, R c c.
Hypothesis R_trans : ∀ c1 c2 c3, R c1 c2 → R c2 c3 → R c1 c3.
Hypothesis R_state : ∀ s c, R c (set_state s c).
Hypothesis R_onState : ∀ l w c, state c = l_to l → R c (onState l w c).1.

Lemma transit_respects t w :
  respects R (onBefore t w) → respects R (onAfter t) → respects R (transit t w).
Proof.
  intros HB HA c. unfold transit. cbv [mbind M_bind get].
  destruct (transitionFor (state c) t) as [s|]; [|apply R_refl].
  pose proof (HB c) as H1.
  destruct (onBefore t w c) as [c1 [[]|e]]; simpl in *; [|exact H1].
  destruct (negb (State_eqb (state c) s)); simpl.
  - match goal with |- context [onState ?l w ?x] =>
      pose proof (R_onState l w x eq_refl) as H2;
      destruct (onState l w x) as [c3 [[]|e]] end; simpl in *.
    + eapply R_trans; [exact H1|]. eapply R_trans; [apply R_state|].
      eapply R_trans; [exact H2 | apply HA].
    + eapply R_trans; [exact H1|]. eapply R_trans; [apply R_state | exact H2].
  - eapply R_trans; [exact H1 | apply HA].
Qed.

End Transit.

Lemma shutdownNeutrino_untouched w c :
  exit_expected c → untouched c (shutdownNeutrino w c).1.
Proof.
  apply (shutdownNeutrino_expected untouched untouched_refl untouched_trans);
    auto using once_exit_untouched, elapse_untouched, shutdown_executor_untouched.
Qed.

Lemma onState_untouched l w c : state c = l_to l → untouched c (onState l w c).1.
Proof.
  apply (onState_entered untouched untouched_refl untouched_trans).
  - apply shutdownNeutrino_untouched.
  - apply lightning_disconnect_untouched.
  - done.
  - apply elapse_untouched.
Qed.

(** ** The table of transitions *)

Lemma transitionFor_startOnboarding s : transitionFor s startOnboarding = Some onboarding.
Proof. by destruct s. Qed.

Lemma transitionFor_terminate s : transitionFor s terminate = Some terminated.
Proof. by destruct s. Qed.

Lemma transitionFor_startLnd s :
  transitionFor s startLnd = if State_eqb s onboarding then Some running else None.
Proof. by destruct s. Qed.

Lemma transitionFor_connectLnd s :
  transitionFor s connectLnd = if State_eqb s onboarding then Some connected else None.
Proof. by destruct s. Qed.

Lemma State_eqb_eq a b : State_eqb a b = true ↔ a = b.
Proof. destruct a, b; simpl; split; congruence. Qed.

Lemma transit_rejected t w c :
  transitionFor (state c) t = None →
  transit t w c = (c, Throws (InvalidTransition t (state c))).
Proof. intros H. unfold transit, mbind, M_bind, get. by rewrite H. Qed.

(** ** No second supervisor *)

Lemma transit_terminate_untouched w c :
  state (transit terminate w c).1 = terminated
  ∧ spawned (transit terminate w c).1 = spawned c
  ∧ cipherSuites (transit terminate w c).1 = cipherSuites c.
Proof.
  unfold transit, mbind, M_bind, get. rewrite transitionFor_terminate. simpl.
  destruct (State_eqb (state c) terminated) eqn:E; simpl.
  - apply State_eqb_eq in E. done.
  - match goal with |- context [onState ?l w ?x] =>
      destruct (onState_untouched l w x) as (H1 & H2 & H3 & _);
      destruct (onState l w x) as [c1 [[]|e]] end; simpl in *; done.
Qed.

Lemma transit_no_new_supervisor t w :
  t ≠ startOnboarding → respects no_new_supervisor (transit t w).
Proof.
  intros Ht c Hs. destruct t; [done| | |].
  - rewrite transit_rejected; [done|]. rewrite transitionFor_startLnd.
    destruct (State_eqb (state c) onboarding) eqn:E; [by apply State_eqb_eq in E | done].
  - rewrite transit_rejected; [done|]. rewrite transitionFor_connectLnd.
    destruct (State_eqb (state c) onboarding) eqn:E; [by apply State_eqb_eq in E | done].
  - destruct (transit_terminate_untouched w c) as (H1 & H2 & _). rewrite H1. done.
Qed.

Lemma neutrino_on_no_new_supervisor ev w : respects no_new_supervisor (neutrino_on ev w).
Proof.
  destruct ev; simpl;
    try (solve [apply respects_untouched_no_new_supervisor; frame]).
  assert (respects no_new_supervisor (transit terminate (exited w))) as Ht
    by by apply transit_no_new_supervisor.
  frame.
Qed.

Section RunFacts.

Variable SETTINGS_PROPS : ConnectionType → list string.

Lemma finishOnboarding_no_new_supervisor options w :
  respects no_new_supervisor (finishOnboarding SETTINGS_PROPS options w).
Proof.
  intros c Hs. unfold finishOnboarding. destruct (LndConfig_new _ _) as [e|config]; [done|].
  cbv [mbind M_bind modify save]. simpl.
  destruct (ConnectionType_eqb _ _); rewrite transit_rejected; simpl; try done.
  - rewrite transitionFor_startLnd.
    destruct (State_eqb (state c) onboarding) eqn:E; [by apply State_eqb_eq in E | done].
  - rewrite transitionFor_connectLnd.
    destruct (State_eqb (state c) onboarding) eqn:E; [by apply State_eqb_eq in E | done].
Qed.

Lemma handle_no_new_supervisor ev w :
  ev ≠ Call startOnboarding → respects no_new_supervisor (handle SETTINGS_PROPS ev w).
Proof.
  intros Hev. destruct ev as [t| options | |ev|]; simpl.
  - apply transit_no_new_supervisor. congruence.
  - pose proof (finishOnboarding_no_new_supervisor options w).
    apply respects_bind; [exact no_new_supervisor_trans | frame |].
    intros c. apply respects_foldr;
      [exact no_new_supervisor_refl | exact no_new_supervisor_trans | done].
  - apply respects_bind; [exact no_new_supervisor_trans | frame |].
    intros c. apply respects_foldr;
      [exact no_new_supervisor_refl | exact no_new_supervisor_trans | frame].
  - pose proof (neutrino_on_no_new_supervisor ev w). frame.
  - frame.
Qed.

Lemma run_no_new_supervisor es c :
  Forall (λ e : Event * World, e.1 ≠ Call startOnboarding) es →
  no_new_supervisor c (run SETTINGS_PROPS es c).
Proof.
  revert c. induction es as [|e es IH]; intros c Hes; simpl.
  - apply no_new_supervisor_refl.
  - inversion Hes as [|? ? He Hrest]; subst.
    eapply no_new_supervisor_trans; [|apply IH, Hrest].
    unfold step. by apply handle_no_new_supervisor.
Qed.

End RunFacts.

(** ** The cipher suites and the persisted profile across a transition *)

Lemma neutrino_start_cipherSuites r : respects same_cipherSuites (neutrino_start r).
Proof. intros c. unfold neutrino_start. by destruct r. Qed.

Lemma neutrino_start_profile r : respects same_profile (neutrino_start r).
Proof. intros c. unfold neutrino_start. by destruct r. Qed.

#[local] Hint Resolve neutrino_start_cipherSuites neutrino_start_profile : frame.

Lemma transit_cipherSuites t w : respects same_cipherSuites (transit t w).
Proof.
  apply (transit_respects same_cipherSuites same_cipherSuites_refl same_cipherSuites_trans).
  - done.
  - intros l w' c H. apply untouched_same_cipherSuites, onState_untouched, H.
  - unfold onBefore, onBeforeStartLnd, startNeutrino. frame.
  - frame.
Qed.

Lemma transit_profile t w : respects same_profile (transit t w).
Proof.
  apply (transit_respects same_profile same_profile_refl same_profile_trans).
  - done.
  - intros l w' c H. by destruct (onState_untouched l w' c H) as (_&_&_&?).
  - unfold onBefore, onBeforeStartLnd, startNeutrino. frame.
  - frame.
Qed.

Lemma neutrino_on_cipherSuites ev w : respects same_cipherSuites (neutrino_on ev w).
Proof. pose proof (transit_cipherSuites terminate (exited w)). destruct ev; simpl; frame. Qed.

Lemma written_once_refl c : written_once c c.
Proof. by left. Qed.

Lemma written_once_trans c1 c2 c3 :
  written_once c1 c2 → written_once c2 c3 → written_once c1 c3.
Proof.
  intros [H12|[Hn [t Ht]]] [H23|[Hn' [t' Ht']]].
  - left. congruence.
  - right. rewrite <- H12. eauto.
  - right. split; [done|]. exists t. congruence.
  - rewrite Ht in Hn'. simpl in Hn'. by rewrite truthy_grpcSslCipherSuites in Hn'.
Qed.

Lemma respects_cipherSuites_written_once {A} (m : M A) :
  respects same_cipherSuites m → respects written_once m.
Proof. intros H c. left. apply H. Qed.

Section OnboardingFacts.

Variable SETTINGS_PROPS : ConnectionType → list string.

Lemma LndConfig_new_profile_of options :
  LndConfig_new SETTINGS_PROPS (profile_of SETTINGS_PROPS options)
  = inr (profile_of SETTINGS_PROPS options)
  ↔ ∀ k, k ∈ SETTINGS_PROPS (o_type options) → is_Some (o_fields options !! k).
Proof.
  rewrite <- pick_missing_keys. unfold LndConfig_new. simpl.
  rewrite pick_no_extra_keys. destruct (missing_keys _ _ _); split; done.
Qed.

Lemma LndConfig_new_inr o config :
  LndConfig_new SETTINGS_PROPS o = inr config → config = o.
Proof.
  unfold LndConfig_new.
  destruct (missing_keys _ _ _), (extra_keys _ _ _); intros H; by inversion H.
Qed.

Lemma finishOnboarding_unfold options w c :
  finishOnboarding SETTINGS_PROPS options w c =
  match LndConfig_new SETTINGS_PROPS (profile_of SETTINGS_PROPS options) with
  | inl e => (c, Throws e)
  | inr _ =>
      transit (if ConnectionType_eqb (o_type options) local then startLnd else connectLnd)
              w (onboarded SETTINGS_PROPS options c)
  end.
Proof.
  unfold finishOnboarding. fold (profile_of SETTINGS_PROPS options).
  destruct (LndConfig_new _ _) as [e|config] eqn:E; [done|].
  apply LndConfig_new_inr in E as ->.
  cbv [mbind M_bind modify save]. simpl.
  by destruct (ConnectionType_eqb _ _).
Qed.

Lemma finishOnboarding_written_once options w :
  respects written_once (finishOnboarding SETTINGS_PROPS options w).
Proof.
  intros c. rewrite finishOnboarding_unfold.
  destruct (LndConfig_new _ _) as [e|config]; [by left|].
  match goal with |- written_once _ (transit ?t w ?x).1 =>
    pose proof (transit_cipherSuites t w x) as H end.
  unfold same_cipherSuites in H. unfold written_once. rewrite H. simpl.
  destruct (cipherSuites c) as [s|]; simpl; [destruct (truthy s) eqn:E|]; eauto.
Qed.

Lemma handle_written_once ev w : respects written_once (handle SETTINGS_PROPS ev w).
Proof.
  destruct ev as [t| options | |ev|]; simpl.
  - apply respects_cipherSuites_written_once, transit_cipherSuites.
  - apply respects_bind; [exact written_once_trans | intros c; apply written_once_refl |].
    intros c. apply respects_foldr;
      [exact written_once_refl | exact written_once_trans |].
    apply finishOnboarding_written_once.
  - apply respects_cipherSuites_written_once.
    apply respects_bind; [exact same_cipherSuites_trans | frame |].
    intros c. apply respects_foldr;
      [exact same_cipherSuites_refl | exact same_cipherSuites_trans | frame].
  - apply respects_cipherSuites_written_once.
    pose proof (neutrino_on_cipherSuites ev w). frame.
  - apply respects_cipherSuites_written_once. frame.
Qed.

Lemma run_written_once es c : written_once c (run SETTINGS_PROPS es c).
Proof.
  unfold run. apply respects_fold_left;
    [exact written_once_refl | exact written_once_trans |].
  intros c' e. apply handle_written_once.
Qed.

End OnboardingFacts.

(** ** Concrete runs *)

Example at_onboarding_state : state (at_onboarding None) = onboarding.
Proof. reflexivity. Qed.

Example at_onboarding_outbox :
  outbox (at_onboarding None) = [("startOnboarding", DConfig no_config)].
Proof. reflexivity. Qed.

(** A certificate error is reported with a host entry as well: the last
    branch of the handler runs for every code but 12. *)
Example connectLnd_cert_error :
  outbox (transit connectLnd (world_with (Fails (CertificateError "bad")) Connects)
            (at_onboarding None)).1
  = [("startOnboarding", DConfig no_config);
     ("startLndError",
      DErrors {| host := Some "Unable to connect to host: bad";
                 cert := Some "bad"; macaroon := None |})].
Proof. reflexivity. Qed.

Example connectLnd_macaroon_error :
  outbox (transit connectLnd (world_with (Fails (MacaroonError "bad")) Connects)
            (at_onboarding None)).1
  = [("startOnboarding", DConfig no_config);
     ("startLndError",
      DErrors {| host := Some "Unable to connect to host: bad";
                 cert := None; macaroon := Some "bad" |})].
Proof. reflexivity. Qed.

(** With a local node, the authenticated connect is asked for by the renderer
    ('startLightningWallet'); when it fails with code 12 there is no handler
    that falls back: nothing is sent and the unlocker session is untouched. *)
Example startLightningWallet_unimplemented :
  let c := (finishOnboarding settings_props local_options fair_world
              (at_onboarding None)).1 in
  let w := world_with (Fails (UnimplementedError "unknown service" None)) Connects in
  let c' := run settings_props [(IpcStartLightningWallet, w)] c in
  state c = running
  ∧ outbox c' = outbox c
  ∧ walletUnlocker c' = walletUnlocker c.
Proof. vm_compute. done. Qed.

(** Running a method on a controller whose fields are known: the methods are
    unfolded and the branches that the known fields decide are taken. *)
Ltac unfold_methods :=
  cbv [transit onBefore onState onAfter onOnboarding onTerminated onTerminate
       onStartOnboarding onBeforeStartLnd onBeforeConnectLnd startNeutrino neutrino_start
       startLightningWallet startWalletUnlocker lightning_connect walletUnlocker_connect
       lightning_disconnect sendMessage ipcMain_on ipcMain_removeAllListeners
       _registerIpcListeners _removeIpcListeners showMessageBox neutrino_on
       try_catch throw get modify detached when mbind M_bind mret M_ret connect];
  simpl.

(** ** C1: a host error during connectLnd *)

(** C1, as the code has it.  When the authenticated connect of a connectLnd
    transition fails with HostUnreachableError "x" (and the window is there),
    exactly one notification is sent, startLndError, whose payload has a host
    entry and neither a cert nor a macaroon entry; the error is thrown again,
    which cancels the transition: the state is still 'onboarding'. *)
Theorem connectLnd_host_error (c : Controller) (w : World) (x : string) :
  state c = onboarding →
  mainWindow c = true →
  lightningConnect w = Fails (HostUnreachableError x) →
  ∃ c' h,
    transit connectLnd w c = (c', Throws (ConnectError (HostUnreachableError x)))
    ∧ outbox c' = (outbox c ++ [("startLndError",
                     DErrors {| host := Some h; cert := None; macaroon := None |})])%list
    ∧ state c' = onboarding.
Proof.
  intros Hs Hw Hl. destruct c, w; simpl in *; subst.
  eexists _, _. split; [unfold_methods; reflexivity|]. split; reflexivity.
Qed.

Lemma connectLnd_host_error_witness :
  ∃ c' h,
    transit connectLnd (world_with (Fails (HostUnreachableError "x")) Connects)
            (at_onboarding None)
    = (c', Throws (ConnectError (HostUnreachableError "x")))
    ∧ outbox c' = (outbox (at_onboarding None) ++ [("startLndError",
                     DErrors {| host := Some h; cert := None; macaroon := None |})])%list
    ∧ state c' = onboarding.
Proof.
  apply (connectLnd_host_error (at_onboarding None)
           (world_with (Fails (HostUnreachableError "x")) Connects) "x");
    reflexivity.
Defined.

(** The claim as it is written fails on the custom profile of the scenario:
    the payload is not {host: "x"} and the state is not 'connected'. *)
Lemma connectLnd_host_error_counterexample :
  let w := world_with (Fails (HostUnreachableError "x")) Connects in
  let c' := (finishOnboarding settings_props custom_options w (at_onboarding None)).1 in
  outbox c' = [("startOnboarding", DConfig no_config);
               ("startLndError",
                DErrors {| host := Some "Unable to connect to host: x";
                           cert := None; macaroon := None |})]
  ∧ state c' = onboarding
  ∧ ¬ (List.filter (λ n, bool_decide (n.1 = "startLndError")) (outbox c')
       = [("startLndError", DErrors {| host := Some "x"; cert := None; macaroon := None |})]
       ∧ state c' = connected).
Proof.
  vm_compute. split; [reflexivity|]. split; [reflexivity|].
  intros [_ H]. discriminate H.
Qed.

(** ** C2: the fall back to the wallet unlocker *)

(** C2, as the code has it.  When the authenticated connect of a connectLnd
    transition fails with gRPC code 12 and the connect of the wallet unlocker
    then succeeds (and the window is there), the transition completes, the
    unlocker session is the open one, and the only notification sent is one
    walletUnlockerGrpcActive: no startLndError.  A startLnd transition makes
    no authenticated connect: it sends nothing and opens no session. *)
Theorem connectLnd_unimplemented_falls_back (c : Controller) (w : World) (e : GrpcError) :
  state c = onboarding →
  mainWindow c = true →
  lightningConnect w = Fails e →
  code e = CodeNumber 12 →
  unlockerConnect w = Connects →
  (∃ c',
     transit connectLnd w c = (c', Returns tt)
     ∧ outbox c' = (outbox c ++ [("walletUnlockerGrpcActive", DUndefined)])%list
     ∧ walletUnlocker c' = Some {| open := true |}
     ∧ lightning c' = Some {| open := false |}
     ∧ state c' = connected)
  ∧ outbox (transit startLnd w c).1 = outbox c
  ∧ lightning (transit startLnd w c).1 = lightning c
  ∧ walletUnlocker (transit startLnd w c).1 = walletUnlocker c.
Proof.
  intros Hs Hw Hl He Hu. destruct c, w, e as [cd msg det]; simpl in *; subst.
  split; [|split; [|split]].
  - eexists. split; [unfold_methods; reflexivity|]. repeat split; reflexivity.
  - unfold_methods. by destruct neutrinoStart0.
  - unfold_methods. by destruct neutrinoStart0.
  - unfold_methods. by destruct neutrinoStart0.
Qed.

Lemma connectLnd_unimplemented_falls_back_witness :
  let w := world_with (Fails (UnimplementedError "unknown service lnrpc.Lightning" None))
                      Connects in
  let c := at_onboarding None in
  (∃ c',
     transit connectLnd w c = (c', Returns tt)
     ∧ outbox c' = (outbox c ++ [("walletUnlockerGrpcActive", DUndefined)])%list
     ∧ walletUnlocker c' = Some {| open := true |}
     ∧ lightning c' = Some {| open := false |}
     ∧ state c' = connected)
  ∧ outbox (transit startLnd w c).1 = outbox c
  ∧ lightning (transit startLnd w c).1 = lightning c
  ∧ walletUnlocker (transit startLnd w c).1 = walletUnlocker c.
Proof.
  apply (connectLnd_unimplemented_falls_back (at_onboarding None)
           (world_with (Fails (UnimplementedError "unknown service lnrpc.Lightning" None))
                       Connects)
           (UnimplementedError "unknown service lnrpc.Lightning" None));
    reflexivity.
Defined.

(** The claim as it is written fails when the wallet unlocker cannot be
    reached either: the unlocker session is not open and no
    walletUnlockerGrpcActive is sent. *)
Lemma connectLnd_unimplemented_counterexample :
  let down := UnimplementedError "unknown service" None in
  let w := world_with (Fails down) (Fails (HostUnreachableError "x")) in
  let c' := (transit connectLnd w (at_onboarding None)).1 in
  code down = CodeNumber 12
  ∧ ¬ (walletUnlocker c' = Some {| open := true |}
       ∧ length (List.filter (λ n, bool_decide (n.1 = "walletUnlockerGrpcActive"))
                             (outbox c')) = 1).
Proof.
  split; [reflexivity|]. vm_compute. intros [H _]. discriminate H.
Qed.

(** ** C8: a local node from start to the wallet unlocker *)

(** C8. For a local profile that supplies the settings of its type, onboarding
    finished from 'onboarding' with lnd starting, then the supervisor emitting
    chain-sync-waiting, chain-sync-started and wallet-unlocker-grpc-active
    with the unlocker connecting (and the window there): the notifications
    sent are lndSyncStatus "waiting", lndSyncStatus "in-progress" and
    walletUnlockerGrpcActive, in this order and no other, and the state is
    'running' at the end. *)
Theorem startLnd_scenario (SETTINGS_PROPS : ConnectionType → list string)
    (options : onboardingOptions) (c : Controller) (w0 w1 w2 w3 : World) :
  o_type options = local →
  (∀ k, k ∈ SETTINGS_PROPS local → is_Some (o_fields options !! k)) →
  state c = onboarding →
  mainWindow c = true →
  neutrinoStart w0 = Starts →
  unlockerConnect w3 = Connects →
  let c0 := (finishOnboarding SETTINGS_PROPS options w0 c).1 in
  let c' := run SETTINGS_PROPS
              [(Emit chain_sync_waiting, w1); (Emit chain_sync_started, w2);
               (Emit wallet_unlocker_grpc_active, w3)] c0 in
  outbox c' = (outbox c ++ [("lndSyncStatus", DString "waiting");
                            ("lndSyncStatus", DString "in-progress");
                            ("walletUnlockerGrpcActive", DUndefined)])%list
  ∧ state c0 = running
  ∧ state c' = running.
Proof.
  intros Ht Hk Hs Hm Hn Hu c0 c'. subst c' c0.
  rewrite finishOnboarding_unfold.
  assert (LndConfig_new SETTINGS_PROPS (profile_of SETTINGS_PROPS options)
          = inr (profile_of SETTINGS_PROPS options)) as ->.
  { apply LndConfig_new_profile_of. by rewrite Ht. }
  rewrite Ht. simpl ConnectionType_eqb. cbv iota.
  unfold onboarded. generalize (profile_of SETTINGS_PROPS options). intros config.
  destruct c, w0, w3; simpl in *; subst.
  unfold run, step, handle. unfold_methods.
  rewrite <- !app_assoc. done.
Qed.

Lemma startLnd_scenario_witness :
  let c := at_onboarding None in
  let c0 := (finishOnboarding settings_props local_options fair_world c).1 in
  let c' := run settings_props
              [(Emit chain_sync_waiting, fair_world); (Emit chain_sync_started, fair_world);
               (Emit wallet_unlocker_grpc_active, fair_world)] c0 in
  outbox c' = (outbox c ++ [("lndSyncStatus", DString "waiting");
                            ("lndSyncStatus", DString "in-progress");
                            ("walletUnlockerGrpcActive", DUndefined)])%list
  ∧ state c0 = running
  ∧ state c' = running.
Proof.
  apply (startLnd_scenario settings_props local_options (at_onboarding None)
           fair_world fair_world fair_world fair_world); try reflexivity.
  intros k Hk. vm_compute in Hk.
  apply elem_of_cons in Hk as [->|Hk]; [by eexists|].
  apply elem_of_cons in Hk as [->|Hk]; [by eexists|].
  inversion Hk.
Defined.

(** ** C5: the two sessions *)

(** C5, as the code has it.  Opening one session does not tear the other one
    down: [startWalletUnlocker] leaves the authenticated session as it is and
    [startLightningWallet] leaves the unlocker session as it is, so that after
    the unlocker has connected and then the authenticated session has, both
    are open. *)
Theorem sessions_left_open (c : Controller) (w1 w2 : World) :
  lightning (startWalletUnlocker w1 c).1 = lightning c
  ∧ walletUnlocker (startLightningWallet w2 c).1 = walletUnlocker c
  ∧ (unlockerConnect w1 = Connects →
     lightningConnect w2 = Connects →
     both_open (startLightningWallet w2 (startWalletUnlocker w1 c).1).1 = true).
Proof.
  destruct c, w1, w2; simpl. split; [|split].
  - unfold_methods. destruct unlockerConnect0; simpl; [by destruct mainWindow0 | done].
  - unfold_methods. destruct lightningConnect1; simpl; [by destruct mainWindow0 | done].
  - intros -> ->. unfold_methods. by destruct mainWindow0.
Qed.

Lemma sessions_left_open_witness :
  both_open (startLightningWallet fair_world
               (startWalletUnlocker fair_world (at_onboarding None)).1).1 = true.
Proof.
  apply (sessions_left_open (at_onboarding None) fair_world fair_world); reflexivity.
Defined.

(** The claim as it is written fails: a local node whose wallet has been
    unlocked has both sessions open. *)
Lemma sessions_exclusive_counterexample :
  let c := run settings_props
             [(Call startOnboarding, fair_world);
              (IpcStartLnd local_options, fair_world);
              (Emit wallet_unlocker_grpc_active, fair_world);
              (IpcStartLightningWallet, fair_world)]
             (constructor no_config None) in
  reachable settings_props c
  ∧ both_open c = true
  ∧ ¬ (∀ c, reachable settings_props c → both_open c = false).
Proof.
  intros c.
  assert (reachable settings_props c) as Hr.
  { subst c. unfold run. simpl. repeat apply reachable_step. apply reachable_constructor. }
  assert (both_open c = true) as Hb by by vm_compute.
  split; [done|]. split; [done|].
  intros H. specialize (H c Hr). congruence.
Qed.

(** ** C3: which transitions are accepted *)

(** C3. startLnd and connectLnd are accepted in 'onboarding' and in no other
    state; startOnboarding and terminate are accepted in every state that is
    not final.  A startLnd in 'running' throws and leaves the controller as it
    was; and from 'running', whatever reaches the controller, as long as
    startOnboarding is not called no further Neutrino object is created. *)
Theorem startLnd_only_from_onboarding (SETTINGS_PROPS : ConnectionType → list string) :
  (∀ s, can s startLnd = true ↔ s = onboarding)
  ∧ (∀ s, can s connectLnd = true ↔ s = onboarding)
  ∧ (∀ s, terminal s = false → can s startOnboarding = true ∧ can s terminate = true)
  ∧ (∀ c w, state c = running →
       transit startLnd w c = (c, Throws (InvalidTransition startLnd running)))
  ∧ (∀ c es, state c = running →
       Forall (λ e : Event * World, e.1 ≠ Call startOnboarding) es →
       spawned (run SETTINGS_PROPS es c) = spawned c).
Proof.
  split; [|split; [|split; [|split]]].
  - intros s. destruct s; cbv; split; congruence.
  - intros s. destruct s; cbv; split; congruence.
  - intros s Hs. destruct s; cbv in *; split; congruence.
  - intros c w Hs. rewrite transit_rejected; rewrite Hs; done.
  - intros c es Hs Hes.
    apply (run_no_new_supervisor SETTINGS_PROPS es c Hes). by rewrite Hs.
Qed.

Lemma startLnd_only_from_onboarding_witness :
  let c := (finishOnboarding settings_props local_options fair_world
              (at_onboarding None)).1 in
  state c = running
  ∧ transit startLnd fair_world c = (c, Throws (InvalidTransition startLnd running))
  ∧ spawned (run settings_props
               [(Call startLnd, fair_world); (IpcStartLnd local_options, fair_world);
                (Call terminate, fair_world)] c) = spawned c.
Proof.
  intros c.
  destruct (startLnd_only_from_onboarding settings_props) as (_ & _ & _ & H1 & H2).
  assert (state c = running) as Hs by reflexivity.
  split; [done|]. split.
  - apply H1, Hs.
  - apply H2; [done|]. repeat constructor; discriminate.
Defined.

(** ** C10: nothing to shut down *)

(** C10. When the profile is not a local one, or there is no Neutrino object,
    or it has no child process, [shutdownNeutrino] returns at once and the
    controller is exactly as it was: no signal sent, no timer started. *)
Theorem shutdownNeutrino_nothing_to_stop (w : World) (c : Controller) :
  type (lndConfig c) ≠ local
  ∨ neutrino c = None
  ∨ (∃ n, neutrino c = Some n ∧ process n = false) →
  shutdownNeutrino w c = (c, Returns tt).
Proof.
  intros H. unfold shutdownNeutrino.
  assert (shutdown_guard c = true) as ->; [|done].
  unfold shutdown_guard. destruct H as [H|[H|(n & H & Hp)]].
  - by destruct (type (lndConfig c)).
  - rewrite H. apply orb_true_r.
  - rewrite H, Hp. apply orb_true_r.
Qed.

Lemma shutdownNeutrino_nothing_to_stop_witness :
  let c := (finishOnboarding settings_props custom_options fair_world
              (at_onboarding None)).1 in
  state c = connected
  ∧ shutdownNeutrino fair_world c = (c, Returns tt).
Proof.
  intros c. split; [reflexivity|].
  apply shutdownNeutrino_nothing_to_stop. left. vm_compute. discriminate.
Defined.

(** ** C7: the cipher suites *)

(** C7, as the code has it.  [grpcSslCipherSuites] is one of two fixed lists
    joined by ':', the RSA pair for 'btcpayserver' and the four ECDSA suites
    otherwise.  [finishOnboarding] leaves a value of the variable that is set
    and not empty as it is, and writes the list of the connection type when
    the variable is unset or empty (and the profile is built).  No step of the
    controller changes the variable in another way, and along a run a value
    that is set and not empty stays for good: at most one value is written. *)
Theorem cipherSuites_written_once (SETTINGS_PROPS : ConnectionType → list string) :
  grpcSslCipherSuites btcpayserver
  = "ECDHE-RSA-AES256-GCM-SHA384:ECDHE-RSA-AES128-GCM-SHA256"
  ∧ (∀ t, t ≠ btcpayserver →
       grpcSslCipherSuites t
       = "ECDHE-ECDSA-AES128-GCM-SHA256:ECDHE-ECDSA-AES256-GCM-SHA384:ECDHE-ECDSA-AES128-CBC-SHA256:ECDHE-ECDSA-CHACHA20-POLY1305")
  ∧ (∀ options w c s,
       cipherSuites c = Some s → s ≠ EmptyString →
       cipherSuites (finishOnboarding SETTINGS_PROPS options w c).1 = Some s)
  ∧ (∀ options w c,
       cipherSuites c = None ∨ cipherSuites c = Some EmptyString →
       (∀ k, k ∈ SETTINGS_PROPS (o_type options) → is_Some (o_fields options !! k)) →
       cipherSuites (finishOnboarding SETTINGS_PROPS options w c).1
       = Some (grpcSslCipherSuites (o_type options)))
  ∧ (∀ c e,
       cipherSuites (step SETTINGS_PROPS c e) ≠ cipherSuites c →
       (cipherSuites c = None ∨ cipherSuites c = Some EmptyString)
       ∧ ∃ t, cipherSuites (step SETTINGS_PROPS c e) = Some (grpcSslCipherSuites t))
  ∧ (∀ es c s,
       cipherSuites c = Some s → s ≠ EmptyString →
       cipherSuites (run SETTINGS_PROPS es c) = Some s).
Proof.
  assert (∀ s, s ≠ EmptyString → truthy s = true) as Htruthy by by intros [|].
  assert (∀ a, externally_set a = false → a = None ∨ a = Some EmptyString) as Hunset.
  { intros [[|]|]; simpl; auto; discriminate. }
  split; [reflexivity|]. split; [by intros []|].
  split; [|split; [|split]].
  - intros options w c s Hc Hs.
    destruct (finishOnboarding_written_once SETTINGS_PROPS options w c) as [H|[H _]].
    + by rewrite H.
    + rewrite Hc in H. simpl in H. rewrite Htruthy in H; done.
  - intros options w c Hc Hk. rewrite finishOnboarding_unfold.
    apply LndConfig_new_profile_of in Hk as ->.
    rewrite transit_cipherSuites. simpl. by destruct Hc as [-> | ->].
  - intros c e Hne.
    destruct (handle_written_once SETTINGS_PROPS e.1 e.2 c) as [H|[H Ht]]; [done|].
    split; [by apply Hunset | done].
  - intros es c s Hc Hs.
    destruct (run_written_once SETTINGS_PROPS es c) as [H|[H _]].
    + by rewrite H.
    + rewrite Hc in H. simpl in H. rewrite Htruthy in H; done.
Qed.

Lemma cipherSuites_written_once_witness :
  cipherSuites (finishOnboarding settings_props custom_options fair_world
                  (at_onboarding (Some "AES128-SHA"))).1 = Some "AES128-SHA"
  ∧ cipherSuites (finishOnboarding settings_props custom_options fair_world
                    (at_onboarding None)).1
    = Some (grpcSslCipherSuites custom).
Proof.
  destruct (cipherSuites_written_once settings_props) as (_ & _ & H1 & H2 & _).
  split.
  - apply H1; [reflexivity | discriminate].
  - apply (H2 custom_options); [by left|].
    intros k Hk. vm_compute in Hk.
    apply elem_of_cons in Hk as [->|Hk]; [by eexists|].
    apply elem_of_cons in Hk as [->|Hk]; [by eexists|].
    apply elem_of_cons in Hk as [->|Hk]; [by eexists|].
    inversion Hk.
Defined.

(** The claim as it is written fails for a variable that is set to the empty
    string from outside: it is overwritten. *)
Lemma cipherSuites_counterexample :
  let c := at_onboarding (Some EmptyString) in
  let c' := (finishOnboarding settings_props custom_options fair_world c).1 in
  cipherSuites c = Some EmptyString
  ∧ cipherSuites c' = Some (grpcSslCipherSuites custom)
  ∧ cipherSuites c' ≠ cipherSuites c.
Proof. vm_compute. repeat split; discriminate. Qed.

(** ** C9: what onboarding persists *)

(** C9, as the code has it.  Whatever the options, as long as they supply the
    settings of their type (so that the profile is built), [finishOnboarding]
    sets, saves and records as active a profile whose currency is 'bitcoin',
    whose network is 'testnet' and whose wallet is 'wallet-1'; the connection
    type and the picked settings are what comes from the options.  When the
    options lack a setting of their type, the constructor of the profile
    throws a ConfigValidationError that names it, before anything is set,
    saved or recorded: the controller is as it was. *)
Theorem finishOnboarding_constants (SETTINGS_PROPS : ConnectionType → list string)
    (options : onboardingOptions) (w : World) (c : Controller) :
  let c' := (finishOnboarding SETTINGS_PROPS options w c).1 in
  let config :=
    {| type := o_type options; currency := "bitcoin"; network := "testnet";
       wallet := "wallet-1";
       settings := pick (o_fields options) (SETTINGS_PROPS (o_type options)) |} in
  ((∀ k, k ∈ SETTINGS_PROPS (o_type options) → is_Some (o_fields options !! k)) →
   activeConnection c'
   = Some {| ac_type := o_type options; ac_currency := "bitcoin";
             ac_network := "testnet"; ac_wallet := "wallet-1" |}
   ∧ savedConfig c' = Some config
   ∧ lndConfig c' = config)
  ∧ (∀ k, k ∈ SETTINGS_PROPS (o_type options) → o_fields options !! k = None →
     ∃ missing,
       finishOnboarding SETTINGS_PROPS options w c
       = (c, Throws (ConfigValidationError missing []))
       ∧ k ∈ missing).
Proof.
  intros c' config. subst c'. rewrite finishOnboarding_unfold. split.
  - intros Hk. apply LndConfig_new_profile_of in Hk as ->.
    match goal with |- context [transit ?t w ?x] =>
      destruct (transit_profile t w x) as (H1 & H2 & H3) end.
    rewrite H1, H2, H3. done.
  - intros k Hk Hnone. unfold LndConfig_new. simpl. rewrite pick_no_extra_keys.
    assert (k ∈ missing_keys SETTINGS_PROPS (o_type options)
                  (pick (o_fields options) (SETTINGS_PROPS (o_type options)))) as Hin.
    { apply missing_keys_spec. split; [exact Hk|]. apply not_elem_of_dom.
      unfold pick. apply map_lookup_filter_None. by left. }
    destruct (missing_keys _ _ _) as [|m ms]; [inversion Hin|].
    exists (m :: ms). done.
Qed.

Lemma finishOnboarding_constants_witness :
  let c' := (finishOnboarding settings_props local_options fair_world
               (at_onboarding None)).1 in
  let config :=
    {| type := local; currency := "bitcoin"; network := "testnet";
       wallet := "wallet-1";
       settings := pick (o_fields local_options) (settings_props local) |} in
  activeConnection c'
  = Some {| ac_type := local; ac_currency := "bitcoin";
            ac_network := "testnet"; ac_wallet := "wallet-1" |}
  ∧ savedConfig c' = Some config
  ∧ lndConfig c' = config.
Proof.
  destruct (finishOnboarding_constants settings_props local_options fair_world
              (at_onboarding None)) as [H _].
  apply H. intros k Hk. vm_compute in Hk.
  apply elem_of_cons in Hk as [->|Hk]; [by eexists|].
  apply elem_of_cons in Hk as [->|Hk]; [by eexists|].
  inversion Hk.
Defined.

(** The claim as it is written fails on options that lack the settings of
    their type, say {type: 'local'}: the profile is not built and no active
    connection is recorded. *)
Lemma finishOnboarding_constants_counterexample :
  let options := {| o_type := local; o_fields := ∅ |} in
  let c := at_onboarding None in
  let c' := (finishOnboarding settings_props options fair_world c).1 in
  finishOnboarding settings_props options fair_world c
  = (c, Throws (ConfigValidationError ["alias"; "autopilot"] []))
  ∧ activeConnection c' = None
  ∧ savedConfig c' = None
  ∧ ¬ (activeConnection c'
       = Some {| ac_type := local; ac_currency := "bitcoin";
                 ac_network := "testnet"; ac_wallet := "wallet-1" |}).
Proof.
  vm_compute. split; [reflexivity|]. split; [reflexivity|]. split; [reflexivity|].
  intros H. discriminate H.
Qed.

(** ** C4: shutting lnd down *)

Lemma shutdown_guard_false c :
  shutdown_guard c = false ↔
  type (lndConfig c) = local ∧ ∃ n, neutrino c = Some n ∧ process n = true.
Proof.
  unfold shutdown_guard. rewrite orb_false_iff, negb_false_iff. split.
  - intros [Ht Hn]. split; [by destruct (type (lndConfig c))|].
    destruct (neutrino c) as [n|]; [|done]. exists n. by apply negb_false_iff in Hn.
  - intros [Ht (n & Hn & Hp)]. rewrite Ht, Hn, Hp. done.
Qed.

Lemma shutdown_executor_pending c n :
  neutrino c = Some n →
  pending (now c + shutdownDelay)%nat (kill SIGINT (now c) (set_exitHandler true n))
          (shutdown_executor c)
  ∧ now (shutdown_executor c) = now c.
Proof.
  intros Hn. unfold shutdown_executor, pending.
  destruct (lightning c) as [s|] eqn:El; simpl; rewrite ?El; simpl.
  - destruct (can_terminate s); simpl; rewrite Hn; simpl; repeat split; lia.
  - rewrite Hn; simpl; repeat split; lia.
Qed.

Lemma elapse_pending D n d c :
  pending D n c → (now c + d < D)%nat →
  pending D n (elapse d c) ∧ now (elapse d c) = (now c + d)%nat.
Proof.
  intros (Ht & Hr & Hn & He & Hle) Hlt. unfold elapse, pending. rewrite Ht.
  destruct (D <=? now c + d)%nat eqn:E; [apply Nat.leb_le in E; lia|].
  simpl. repeat split; auto; lia.
Qed.

Lemma elapse_fires D n d c :
  pending D n c → (D ≤ now c + d)%nat →
  settled D (kill SIGTERM D (set_exitHandler false n)) (elapse d c).
Proof.
  intros (Ht & Hr & Hn & He & Hle) Hge. unfold elapse, settled. rewrite Ht.
  destruct (D <=? now c + d)%nat eqn:E; [|apply Nat.leb_gt in E; lia].
  unfold run_shutdownTimeout. simpl. rewrite Hn. simpl.
  unfold resolve. simpl. rewrite Hr. simpl.
  rewrite (Nat.max_r _ _ Hle). done.
Qed.

Lemma once_exit_settles D n c :
  pending D n c → settled (now c) (set_exitHandler false n) (once_exit c).
Proof.
  intros (Ht & Hr & Hn & He & Hle). unfold once_exit, settled. rewrite Hn, He.
  unfold run_exitHandler, resolve. simpl. rewrite Hr. done.
Qed.

(** Once a shutdown is settled, nothing the loop delivers changes it: a late
    'exit' finds neither the timer nor the one-shot listener. *)
Lemma loop_step_settled r n ev c :
  exit_expected c → settled r n c → settled r n (loop_step ev c).
Proof.
  intros Hx (Ht & Hr & Hn & He). rewrite loop_step_expected by done.
  destruct ev as [text|d].
  - unfold once_exit. rewrite Hn, He. done.
  - unfold elapse. rewrite Ht. done.
Qed.

Lemma run_loop_settled r n evs c :
  exit_expected c → settled r n c → settled r n (run_loop evs c).
Proof.
  revert c. induction evs as [|ev evs IH]; intros c Hx H; [done|].
  apply IH; [by apply loop_step_stays_expected | by apply loop_step_settled].
Qed.

(** The shutdown that the 'exit' listener of [startNeutrino] starts through
    [terminate] is the shutdown of a world in which lnd has exited, and its
    [terminate] is the transition of the state machine. *)
Lemma shutdownNeutrino_exited w c :
  shutdownNeutrino (exited w) c = shutdownNeutrino_after_exit c.
Proof.
  unfold shutdownNeutrino, shutdownNeutrino_after_exit.
  destruct (shutdown_guard c); [reflexivity|].
  cbv [exited exitAfter until_settled run_loop fold_left loop_step]. reflexivity.
Qed.

Lemma terminate_after_exit_transit w c :
  state c = running ∨ state c = connected →
  terminate_after_exit c = transit terminate (exited w) c.
Proof.
  intros Hs. unfold terminate_after_exit, transit. cbv [mbind M_bind get].
  rewrite transitionFor_terminate.
  assert (State_eqb (state c) terminated = false) as ->
    by (destruct Hs as [-> | ->]; done).
  cbv [onBefore onState onAfter onTerminated onTerminate l_to l_from when negb mret M_ret
       modify mbind M_bind get].
  destruct (_ && _); [reflexivity|].
  destruct (State_eqb (state c) running); [|reflexivity].
  rewrite shutdownNeutrino_exited. reflexivity.
Qed.

Lemma emit_exit_neutrino_on text w c : emit_exit text c = neutrino_on (exit text) w c.
Proof.
  unfold emit_exit, neutrino_on, is_state. cbv [mbind M_bind get].
  destruct (State_eqb (state c) running || State_eqb (state c) connected) eqn:E;
    [|reflexivity].
  cbv [when showMessageBox modify mbind M_bind detached try_catch].
  rewrite (terminate_after_exit_transit w); [reflexivity|].
  simpl. apply orb_true_iff in E as [E|E]; apply State_eqb_eq in E; auto.
Qed.




(** ** Further properties of the controller *)

Lemma run_reachable (SETTINGS_PROPS : ConnectionType → list string)
    (es : list (Event * World)) (c : Controller) :
  reachable SETTINGS_PROPS c → reachable SETTINGS_PROPS (run SETTINGS_PROPS es c).
Proof.
  revert c. induction es as [|e es IH]; intros c H; [exact H|].
  apply IH, reachable_step, H.
Qed.

(** The options supply the settings of their type. *)
Ltac supplied :=
  let k := fresh "k" in
  let Hk := fresh "Hk" in
  intros k Hk; vm_compute in Hk;
  repeat (apply elem_of_cons in Hk as [->|Hk]; [eexists; reflexivity|]);
  inversion Hk.

(** *** What the shutdown leaves alone *)

Lemma undisturbed_refl c : undisturbed c c.
Proof. unfold undisturbed. repeat split; auto. Qed.

Lemma undisturbed_trans c1 c2 c3 :
  undisturbed c1 c2 → undisturbed c2 c3 → undisturbed c1 c3.
Proof.
  unfold undisturbed.
  intros (?&?&?&?&?&?&?&?&?&?&?&?) (?&?&?&?&?&?&?&?&?&?&?&?).
  repeat split; try congruence; try tauto; lia.
Qed.

Ltac undisturbed_leaf :=
  unfold undisturbed; simpl; repeat split; auto; try lia; try done.

Lemma resolve_undisturbed c : undisturbed c (resolve c).
Proof. unfold resolve. destruct (shutdownResolved c); undisturbed_leaf. Qed.

Lemma once_exit_undisturbed c : undisturbed c (once_exit c).
Proof.
  unfold once_exit, run_exitHandler. destruct (neutrino c) as [n|] eqn:E; [|apply undisturbed_refl].
  destruct (exitHandler n); [|apply undisturbed_refl].
  eapply undisturbed_trans; [|apply resolve_undisturbed].
  undisturbed_leaf; rewrite E; done.
Qed.

Lemma run_shutdownTimeout_undisturbed c : undisturbed c (run_shutdownTimeout c).
Proof.
  unfold run_shutdownTimeout. destruct (neutrino c) as [n|] eqn:E; [|apply undisturbed_refl].
  eapply undisturbed_trans; [|apply resolve_undisturbed].
  undisturbed_leaf; rewrite E; done.
Qed.

Lemma elapse_undisturbed d c : undisturbed c (elapse d c).
Proof.
  unfold elapse. destruct (shutdownTimeout c) as [deadline|]; [|undisturbed_leaf].
  destruct (_ <=? _)%nat eqn:E; [|undisturbed_leaf].
  apply Nat.leb_le in E.
  match goal with |- undisturbed _ (set_now _ (run_shutdownTimeout ?x)) =>
    pose proof (run_shutdownTimeout_undisturbed x) as H end.
  unfold undisturbed in *. simpl in *.
  destruct H as (?&?&?&?&?&?&?&?&?&?&?&?).
  repeat split; try congruence; try tauto; lia.
Qed.

Lemma shutdown_executor_undisturbed c : undisturbed c (shutdown_executor c).
Proof.
  unfold shutdown_executor. destruct (lightning c) as [s|] eqn:E; simpl; rewrite ?E.
  - destruct (can_terminate s); undisturbed_leaf; rewrite ?E; destruct (neutrino c); simpl; done.
  - undisturbed_leaf; rewrite ?E; destruct (neutrino c); simpl; done.
Qed.

Lemma shutdownNeutrino_undisturbed w c :
  exit_expected c → undisturbed c (shutdownNeutrino w c).1.
Proof.
  apply (shutdownNeutrino_expected undisturbed undisturbed_refl undisturbed_trans).
  - apply once_exit_undisturbed.
  - apply elapse_undisturbed.
  - apply shutdown_executor_undisturbed.
Qed.

Lemma lightning_disconnect_undisturbed : respects undisturbed lightning_disconnect.
Proof. intros c. undisturbed_leaf; by destruct (lightning c). Qed.

(** [onTerminated], where an exit of lnd is expected, returns. *)
Lemma onTerminated_returning l w c :
  exit_expected c → ∃ c', onTerminated l w c = (c', Returns tt) ∧ undisturbed c c'.
Proof.
  apply (onTerminated_returns undisturbed undisturbed_refl).
  - apply shutdownNeutrino_undisturbed.
  - apply lightning_disconnect_undisturbed.
Qed.

(** What the shutdown leaves alone is left alone by the callback of the state
    that is entered, and by the whole transition, if the fresh start of the
    IPC listeners, the change of state and the callbacks before and after
    leave it alone. *)
Section Undisturbed.

Variable R : relation Controller.
Hypothesis R_refl : ∀ c, R c c.
Hypothesis R_trans : ∀ c1 c2 c3, R c1 c2 → R c2 c3 → R c1 c3.
Hypothesis R_undisturbed : ∀ c c', undisturbed c c' → R c c'.
Hypothesis R_fresh : ∀ c, R c (set_ipcListeners (fresh_listeners (ipcListeners c)) c).

Lemma onState_undisturbed l w c : state c = l_to l → R c (onState l w c).1.
Proof.
  apply (onState_entered R R_refl R_trans).
  - intros w' c' H. by apply R_undisturbed, shutdownNeutrino_undisturbed.
  - intros c'. apply R_undisturbed, lightning_disconnect_undisturbed.
  - exact R_fresh.
  - intros c'. apply R_undisturbed, elapse_undisturbed.
Qed.

Lemma transit_undisturbed t w :
  (∀ s c, R c (set_state s c)) →
  respects R (onBefore t w) → respects R (onAfter t) → respects R (transit t w).
Proof.
  intros R_state. apply (transit_respects R R_refl R_trans R_state).
  intros l w' c. apply onState_undisturbed.
Qed.

End Undisturbed.

Ltac unfold_method :=
  progress unfold _registerIpcListeners, _removeIpcListeners, ipcMain_on,
    ipcMain_removeAllListeners, lightning_disconnect, startWalletUnlocker,
    startLightningWallet, startNeutrino, onStartOnboarding,
    onBeforeStartLnd, onBeforeConnectLnd, onTerminate, onBefore,
    onAfter, showMessageBox, neutrino_on.

Ltac walk refl trans leaf :=
  repeat match goal with
  | |- respects _ (mret _) => apply (respects_ret _ refl)
  | |- respects _ (throw _) => apply (respects_throw _ refl)
  | |- respects _ get => apply (respects_get _ refl)
  | |- respects _ (_ ≫= _) => apply (respects_bind _ trans)
  | |- respects _ (try_catch _ _) => apply (respects_try_catch _ trans)
  | |- respects _ (detached _) => apply (respects_detached _ refl trans)
  | |- respects _ (when _ _) => apply (respects_when _ refl)
  | |- respects _ (modify _) => apply respects_modify
  | |- respects _ _ => solve [leaf]
  | |- respects _ _ => progress cbv beta iota
  | |- respects _ (if ?b then _ else _) => destruct b
  | |- respects _ (match ?x with _ => _ end) => destruct x
  | |- respects _ _ => unfold_method
  | |- ∀ _, _ => intros
  | |- _ => solve [leaf]
  end.

Lemma silent_refl c : silent c c.
Proof. by intros H. Qed.
Lemma silent_trans c1 c2 c3 : silent c1 c2 → silent c2 c3 → silent c1 c3.
Proof. intros H12 H23 H. destruct (H12 H) as [H2 E2]. destruct (H23 H2) as [H3 E3]. split; congruence. Qed.

Lemma undisturbed_silent c c' : undisturbed c c' → silent c c'.
Proof. intros (_&Hw&Ho&_) H. split; congruence. Qed.

Lemma sendMessage_silent msg data : respects silent (sendMessage msg data).
Proof. intros c H. unfold sendMessage. rewrite H. done. Qed.
Lemma walletUnlocker_connect_silent r : respects silent (walletUnlocker_connect r).
Proof. intros c H. unfold walletUnlocker_connect. by destruct (connect _ _). Qed.
Lemma lightning_connect_silent r : respects silent (lightning_connect r).
Proof. intros c H. unfold lightning_connect. by destruct (connect _ _). Qed.
Lemma neutrino_start_silent r : respects silent (neutrino_start r).
Proof. intros c H. unfold neutrino_start. by destruct r. Qed.

Create HintDb silent_db.
#[local] Hint Resolve sendMessage_silent walletUnlocker_connect_silent lightning_connect_silent
  neutrino_start_silent : silent_db.

Ltac silent_leaf :=
  first [ by eauto with silent_db
        | by (apply undisturbed_silent; first [apply elapse_undisturbed | apply once_exit_undisturbed])
        | by (intros ?; split; simpl) ].

Lemma transit_silent t w : respects silent (transit t w).
Proof.
  apply (transit_undisturbed silent silent_refl silent_trans undisturbed_silent).
  - by intros c H.
  - by intros s c H.
  - walk silent_refl silent_trans silent_leaf.
  - walk silent_refl silent_trans silent_leaf.
Qed.
#[local] Hint Resolve transit_silent : silent_db.
Lemma neutrino_on_silent ev w : respects silent (neutrino_on ev w).
Proof. walk silent_refl silent_trans silent_leaf. Qed.

(** *** From the methods to the runs of the controller *)
Section Everywhere.
Variable SETTINGS_PROPS : ConnectionType → list string.
Variable R : relation Controller.
Hypothesis R_refl : ∀ c, R c c.
Hypothesis R_trans : ∀ c1 c2 c3, R c1 c2 → R c2 c3 → R c1 c3.
Hypothesis R_transit : ∀ t w, respects R (transit t w).
Hypothesis R_onboarded : ∀ options c, R c (onboarded SETTINGS_PROPS options c).
Hypothesis R_startLightningWallet : ∀ w, respects R (startLightningWallet w).
Hypothesis R_neutrino_on : ∀ ev w, respects R (neutrino_on ev w).
Hypothesis R_closed : ∀ c, R c (set_mainWindow false c).

Lemma finishOnboarding_respects options w :
  respects R (finishOnboarding SETTINGS_PROPS options w).
Proof.
  intros c. rewrite finishOnboarding_unfold.
  destruct (LndConfig_new _ _); [apply R_refl|].
  eapply R_trans; [apply R_onboarded | apply R_transit].
Qed.

Lemma handle_respects ev w : respects R (handle SETTINGS_PROPS ev w).
Proof.
  destruct ev as [t|options| |ev|]; simpl.
  - apply R_transit.
  - apply (respects_bind _ R_trans); [apply (respects_get _ R_refl)|].
    intros c. apply (respects_foldr _ R_refl R_trans), finishOnboarding_respects.
  - apply (respects_bind _ R_trans); [apply (respects_get _ R_refl)|].
    intros c. apply (respects_foldr _ R_refl R_trans), R_startLightningWallet.
  - apply (respects_bind _ R_trans); [apply (respects_get _ R_refl)|].
    intros c. destruct (neutrino c); [apply R_neutrino_on | apply (respects_ret _ R_refl)].
  - apply respects_modify, R_closed.
Qed.

Lemma run_respects es c : R c (run SETTINGS_PROPS es c).
Proof.
  unfold run. apply (respects_fold_left _ R_refl R_trans).
  intros c' e. apply handle_respects.
Qed.

End Everywhere.

Lemma startLightningWallet_silent w : respects silent (startLightningWallet w).
Proof. walk silent_refl silent_trans silent_leaf. Qed.

(** X1.  Once the main window is gone ([this.mainWindow] is null, as the
    'closed' handler of [init] leaves it), it stays gone and nothing more is
    sent to the renderer, whatever transitions, messages of the renderer and
    events of lnd follow: [sendMessage] only logs a warning. *)
Theorem closed_window_is_silent (SETTINGS_PROPS : ConnectionType → list string)
    (es : list (Event * World)) (c : Controller) :
  mainWindow c = false →
  mainWindow (run SETTINGS_PROPS es c) = false
  ∧ outbox (run SETTINGS_PROPS es c) = outbox c.
Proof.
  apply (run_respects SETTINGS_PROPS silent silent_refl silent_trans).
  - apply transit_silent.
  - by intros options c' H.
  - apply startLightningWallet_silent.
  - apply neutrino_on_silent.
  - by intros c' H.
Qed.

Lemma closed_window_is_silent_witness :
  let c := run settings_props [(Closed, fair_world)] (at_onboarding None) in
  let es := [(IpcStartLnd local_options, fair_world);
             (Emit chain_sync_waiting, fair_world);
             (Emit wallet_unlocker_grpc_active, fair_world)] in
  mainWindow (run settings_props es c) = false
  ∧ outbox (run settings_props es c) = outbox c.
Proof.
  intros c es. apply (closed_window_is_silent settings_props es c). reflexivity.
Defined.

(** *** The objects the controller holds *)

Lemma kept_refl c : kept c c.
Proof. unfold kept. auto. Qed.
Lemma kept_trans c1 c2 c3 : kept c1 c2 → kept c2 c3 → kept c1 c3.
Proof. unfold kept. intros (?&?&?&?) (?&?&?&?). repeat split; auto; lia. Qed.

Lemma undisturbed_kept c c' : undisturbed c c' → kept c c'.
Proof.
  intros (_&_&_&_&Hu&_&_&_&Hs&Hn&Hl&_). unfold kept. rewrite Hu, Hs.
  rewrite <- !not_eq_None_Some. repeat split; auto; tauto.
Qed.

Ltac kept_setters :=
  unfold kept; simpl; repeat split; rewrite ?fmap_is_Some; eauto; lia.

Lemma sendMessage_kept msg data : respects kept (sendMessage msg data).
Proof. intros c. unfold sendMessage. destruct (mainWindow c); [kept_setters | apply kept_refl]. Qed.
Lemma walletUnlocker_connect_kept r : respects kept (walletUnlocker_connect r).
Proof. intros c. unfold walletUnlocker_connect. destruct (connect _ _); [apply kept_refl|kept_setters]. Qed.
Lemma lightning_connect_kept r : respects kept (lightning_connect r).
Proof. intros c. unfold lightning_connect. destruct (connect _ _); [apply kept_refl|kept_setters]. Qed.
Lemma neutrino_start_kept r : respects kept (neutrino_start r).
Proof. intros c. unfold neutrino_start. destruct r; [kept_setters|apply kept_refl]. Qed.

Create HintDb kept_db.
#[local] Hint Resolve sendMessage_kept walletUnlocker_connect_kept lightning_connect_kept
  neutrino_start_kept : kept_db.

Ltac kept_leaf :=
  first [ by eauto with kept_db
        | by (apply undisturbed_kept; first [apply elapse_undisturbed | apply once_exit_undisturbed])
        | kept_setters ].

Lemma transit_kept t w : respects kept (transit t w).
Proof.
  apply (transit_undisturbed kept kept_refl kept_trans undisturbed_kept).
  - intros c. kept_setters.
  - intros s c. kept_setters.
  - walk kept_refl kept_trans kept_leaf.
  - walk kept_refl kept_trans kept_leaf.
Qed.
#[local] Hint Resolve transit_kept : kept_db.
Lemma neutrino_on_kept ev w : respects kept (neutrino_on ev w).
Proof. walk kept_refl kept_trans kept_leaf. Qed.
Lemma startLightningWallet_kept w : respects kept (startLightningWallet w).
Proof. walk kept_refl kept_trans kept_leaf. Qed.

(** X2.  The controller never drops an object it holds: along any sequence of
    transitions, messages and events, [this.neutrino], [this.lightning] and
    [this.walletUnlocker], once set, stay set (they are only ever replaced by
    a new object), and the number of Neutrino objects created never goes
    down. *)
Theorem objects_never_dropped (SETTINGS_PROPS : ConnectionType → list string)
    (es : list (Event * World)) (c : Controller) :
  (is_Some (neutrino c) → is_Some (neutrino (run SETTINGS_PROPS es c)))
  ∧ (is_Some (lightning c) → is_Some (lightning (run SETTINGS_PROPS es c)))
  ∧ (is_Some (walletUnlocker c) → is_Some (walletUnlocker (run SETTINGS_PROPS es c)))
  ∧ (spawned c ≤ spawned (run SETTINGS_PROPS es c))%nat.
Proof.
  apply (run_respects SETTINGS_PROPS kept kept_refl kept_trans).
  - apply transit_kept.
  - intros options c'. kept_setters.
  - apply startLightningWallet_kept.
  - apply neutrino_on_kept.
  - intros c'. kept_setters.
Qed.

(** *** startOnboarding *)

Lemma sendMessage_returns msg data c :
  sendMessage msg data c
  = (if mainWindow c then set_outbox (outbox c ++ [(msg, data)]) c else c, Returns tt).
Proof. unfold sendMessage. by destruct (mainWindow c). Qed.

Lemma now_elapse d c : now (elapse d c) = (now c + d)%nat.
Proof. unfold elapse. destruct (shutdownTimeout c); [destruct (_ <=? _)%nat|]; done. Qed.

Lemma filter_removed (a b : string) (l : list string) :
  List.filter (λ ch, bool_decide (ch = a))
              (List.filter (λ ch, negb (bool_decide (ch = b))) l)
  = if bool_decide (a = b) then [] else List.filter (λ ch, bool_decide (ch = a)) l.
Proof.
  induction l as [|x l IH]; simpl; [by destruct (bool_decide (a = b))|].
  destruct (bool_decide (x = b)) eqn:Eb; simpl.
  - rewrite IH. destruct (bool_decide (a = b)) eqn:Eab; [done|].
    destruct (bool_decide (x = a)) eqn:Ea; [|done].
    apply bool_decide_eq_true in Eb, Ea. apply bool_decide_eq_false in Eab. congruence.
  - rewrite IH. destruct (bool_decide (x = a)) eqn:Ea; [|done].
    destruct (bool_decide (a = b)) eqn:Eab; [|done].
    apply bool_decide_eq_true in Eab, Ea. apply bool_decide_eq_false in Eb. congruence.
Qed.

Lemma fresh_listeners_count l :
  let count ch := length (List.filter (λ x, bool_decide (x = ch)) (fresh_listeners l)) in
  count "startLnd" = 1 ∧ count "startLightningWallet" = 1
  ∧ count "walletUnlocker" = 0 ∧ count "lnd" = 0.
Proof.
  unfold fresh_listeners. cbv zeta. rewrite !List.filter_app, !filter_removed.
  vm_compute. done.
Qed.

Lemma onStartOnboarding_returns c :
  onStartOnboarding c
  = (if mainWindow c
     then set_outbox (outbox c ++ [("startOnboarding", DConfig (lndConfig c))]) c
     else c, Returns tt).
Proof. unfold onStartOnboarding. cbv [mbind M_bind get]. apply sendMessage_returns. Qed.

Lemma transit_startOnboarding_changed w c :
  state c ≠ onboarding →
  transit startOnboarding w c
  = onStartOnboarding
      (elapse 200
         (onTerminated {| l_transition := startOnboarding; l_from := state c;
                          l_to := onboarding |} w
            (set_ipcListeners (fresh_listeners (ipcListeners c))
               (set_state onboarding c))).1).
Proof.
  intros Hs. unfold transit. cbv [mbind M_bind get].
  rewrite transitionFor_startOnboarding.
  assert (State_eqb (state c) onboarding = false) as ->.
  { destruct (State_eqb _ _) eqn:E; [by apply State_eqb_eq in E | done]. }
  cbv [onBefore onState onAfter l_to when negb mret M_ret modify].
  rewrite onOnboarding_eq. reflexivity.
Qed.

Lemma transit_startOnboarding_unchanged w c :
  state c = onboarding → transit startOnboarding w c = onStartOnboarding c.
Proof.
  intros Hs. unfold transit. cbv [mbind M_bind get].
  rewrite transitionFor_startOnboarding, Hs. done.
Qed.

(** X3.  [startOnboarding] is accepted in every state, returns and ends in
    'onboarding'.  It sends one startOnboarding message with the current
    profile if the window is there and nothing otherwise.  If the state was
    'onboarding' already, [onOnboarding] does not run and the IPC listeners
    are left as they are; otherwise there is afterwards exactly one listener
    on 'startLnd', one on 'startLightningWallet' and none on 'walletUnlocker'
    and 'lnd', and at least 200 ms have gone by. *)
Theorem startOnboarding_always_enters (w : World) (c : Controller) :
  ∃ c',
    transit startOnboarding w c = (c', Returns tt)
    ∧ state c' = onboarding
    ∧ mainWindow c' = mainWindow c
    ∧ outbox c'
      = (outbox c ++ if mainWindow c
                     then [("startOnboarding", DConfig (lndConfig c))] else [])%list
    ∧ (state c = onboarding → ipcListeners c' = ipcListeners c)
    ∧ (state c ≠ onboarding →
       listeners "startLnd" c' = 1 ∧ listeners "startLightningWallet" c' = 1
       ∧ listeners "walletUnlocker" c' = 0 ∧ listeners "lnd" c' = 0
       ∧ (now c + 200 ≤ now c')%nat).
Proof.
  destruct (State_eqb (state c) onboarding) eqn:Hs;
    [apply State_eqb_eq in Hs
    |assert (state c ≠ onboarding) as Hs' by (intros E; apply State_eqb_eq in E; congruence);
     clear Hs; rename Hs' into Hs].
  - rewrite (transit_startOnboarding_unchanged w c Hs), onStartOnboarding_returns.
    eexists. split; [reflexivity|].
    destruct (mainWindow c) eqn:Hw; simpl; rewrite ?Hw, ?app_nil_r; repeat split; done.
  - rewrite (transit_startOnboarding_changed w c Hs).
    match goal with |- context [onTerminated ?l w ?x] =>
      destruct (onTerminated_returning l w x ltac:(entered)) as (c2 & E & H) end.
    rewrite E. simpl. rewrite onStartOnboarding_returns.
    pose proof (undisturbed_trans _ _ _ H (elapse_undisturbed 200 c2)) as H'.
    pose proof (now_elapse 200 c2) as Hnow.
    destruct H as (_&_&_&_&_&_&_&_&_&_&_&Hn).
    destruct H' as (Hst&Hw&Ho&Hc&_&Hl&_). simpl in *.
    pose proof (fresh_listeners_count (ipcListeners c)) as (L1 & L2 & L3 & L4).
    eexists. split; [reflexivity|].
    unfold listeners.
    destruct (mainWindow c) eqn:Hm; rewrite Hw; simpl; rewrite ?Hl, ?Ho, ?Hc, ?app_nil_r;
      repeat split; try done; lia.
Qed.

(** *** terminate *)
Lemma transit_terminate_changed w c :
  state c ≠ terminated →
  ∃ c2, transit terminate w c = (set_quit true c2, Returns tt)
        ∧ onTerminated {| l_transition := terminate; l_from := state c; l_to := terminated |}
                       w (set_state terminated c) = (c2, Returns tt)
        ∧ undisturbed (set_state terminated c) c2.
Proof.
  intros Hs. unfold transit. cbv [mbind M_bind get].
  rewrite transitionFor_terminate.
  assert (State_eqb (state c) terminated = false) as ->.
  { destruct (State_eqb _ _) eqn:E; [by apply State_eqb_eq in E | done]. }
  cbv [onBefore onState onAfter l_to when negb mret M_ret modify onTerminate].
  match goal with |- context [onTerminated ?l w ?x] =>
    destruct (onTerminated_returning l w x ltac:(entered)) as (c2 & E & H) end.
  rewrite E. exists c2. done.
Qed.

Lemma transit_terminate_unchanged w c :
  state c = terminated → transit terminate w c = (set_quit true c, Returns tt).
Proof.
  intros Hs. unfold transit. cbv [mbind M_bind get].
  rewrite transitionFor_terminate, Hs. done.
Qed.

(** X4.  [terminate] is accepted in every state, the final one included: it
    returns, ends in 'terminated' and has called [app.quit()]; it sends
    nothing to the renderer and leaves the IPC listeners registered. *)
Theorem terminate_always_quits (w : World) (c : Controller) :
  ∃ c',
    transit terminate w c = (c', Returns tt)
    ∧ state c' = terminated
    ∧ quit c' = true
    ∧ outbox c' = outbox c
    ∧ ipcListeners c' = ipcListeners c.
Proof.
  destruct (State_eqb (state c) terminated) eqn:Hs.
  - apply State_eqb_eq in Hs. rewrite (transit_terminate_unchanged w c Hs).
    eexists. split; [reflexivity|]. done.
  - assert (state c ≠ terminated) as Hs' by (intros E; apply State_eqb_eq in E; congruence).
    destruct (transit_terminate_changed w c Hs') as (c2 & -> & _ & H).
    destruct H as (Hst&_&Ho&_&_&Hl&_).
    eexists. split; [reflexivity|]. simpl in *. done.
Qed.

(** *** lnd exits on its own *)
(** X5.  When lnd exits on its own: in 'running' or 'connected' the 'exit'
    listener of [startNeutrino] shows one error dialog ("Lnd has unexpectedly
    quit:" and the exit details) and terminates the controller, which calls
    [app.quit()]; in any other state it shows nothing and changes neither the
    state nor [quit].  In no state is anything sent to the renderer. *)
Theorem unexpected_exit_terminates (SETTINGS_PROPS : ConnectionType → list string)
    (text : string) (w : World) (c : Controller) :
  is_Some (neutrino c) →
  let c' := step SETTINGS_PROPS c (Emit (exit text), w) in
  (state c = running ∨ state c = connected →
     state c' = terminated ∧ quit c' = true
     ∧ dialogs c' = (dialogs c ++ ["Lnd has unexpectedly quit:" +:+ text])%list)
  ∧ (state c ≠ running → state c ≠ connected →
     state c' = state c ∧ quit c' = quit c ∧ dialogs c' = dialogs c)
  ∧ outbox c' = outbox c.
Proof.
  intros [n Hn] c'. subst c'. unfold step, handle. simpl.
  cbv [mbind M_bind get]. rewrite Hn.
  unfold neutrino_on. cbv [mbind M_bind get]. rewrite Hn.
  unfold is_state.
  cbv [when].
  assert (∀ x (b : bool), ∃ y, (if b then modify once_exit else mret tt) x = (y, Returns tt)
                               ∧ undisturbed x y) as Honce.
  { intros x []; simpl; eexists; (split; [reflexivity|]);
      [apply once_exit_undisturbed | apply undisturbed_refl]. }
  destruct (State_eqb (state c) running || State_eqb (state c) connected) eqn:Hs.
  - assert (state c ≠ terminated) as Hnt.
    { intros E. rewrite E in Hs. discriminate. }
    cbv [showMessageBox mbind M_bind detached try_catch].
    change (modify ?f ?x) with (f x, Returns tt). cbv beta iota.
    match goal with |- context [transit terminate ?w' ?x] =>
      destruct (transit_terminate_changed w' x) as (c2 & -> & _ & H); [exact Hnt|] end.
    destruct (Honce (set_quit true c2) (exitHandler n)) as (y & -> & Hy).
    destruct H as (Hst&_&Ho&_&_&_&Hd&_).
    destruct Hy as (Hst'&_&Ho'&_&_&_&Hd'&Hq'&_). simpl in *.
    split; [|split].
    + intros _. rewrite Hst', Hq', Hd', Hst, Hd. done.
    + intros H1 H2. apply orb_true_iff in Hs as [E|E]; apply State_eqb_eq in E; done.
    + congruence.
  - apply orb_false_iff in Hs as [H1 H2]. simpl.
    destruct (Honce c (exitHandler n)) as (y & E & Hy).
    rewrite E. simpl.
    destruct Hy as (Hst'&_&Ho'&_&_&_&Hd'&Hq'&_).
    split; [|split].
    + intros [E'|E']; rewrite E' in *; discriminate.
    + done.
    + done.
Qed.

Lemma unexpected_exit_terminates_witness :
  let c' := step settings_props running_locally (Emit (exit " code 1"), fair_world) in
  state c' = terminated ∧ quit c' = true
  ∧ dialogs c'
    = (dialogs running_locally ++ ["Lnd has unexpectedly quit:" +:+ " code 1"])%list.
Proof.
  intros c'.
  destruct (unexpected_exit_terminates settings_props " code 1" fair_world running_locally)
    as (H & _ & _); [eexists; reflexivity | apply H; left; reflexivity].
Defined.

(** *** Leaving 'connected' *)

Lemma resolve_lightning c : lightning (resolve c) = lightning c.
Proof. unfold resolve. by destruct (shutdownResolved c). Qed.

Lemma elapse_lightning d c : lightning (elapse d c) = lightning c.
Proof.
  unfold elapse, run_shutdownTimeout.
  destruct (shutdownTimeout c); [destruct (_ <=? _)%nat|]; simpl; try done.
  destruct (neutrino c); simpl; [|done]. by rewrite resolve_lightning.
Qed.

Lemma once_exit_lightning c : lightning (once_exit c) = lightning c.
Proof.
  unfold once_exit, run_exitHandler. destruct (neutrino c) as [n|]; [|done].
  destruct (exitHandler n); [|done]. by rewrite resolve_lightning.
Qed.

Lemma run_loop_lightning evs c :
  exit_expected c → lightning (run_loop evs c) = lightning c.
Proof.
  apply (run_loop_expected (λ c c', lightning c' = lightning c)).
  - done.
  - intros c1 c2 c3 H1 H2. congruence.
  - apply once_exit_lightning.
  - apply elapse_lightning.
Qed.

Lemma shutdown_executor_closed c : closed (lightning (shutdown_executor c)).
Proof.
  unfold shutdown_executor. destruct (lightning c) as [[[]]|] eqn:E; simpl; rewrite ?E; simpl; rewrite ?E; done.
Qed.

Lemma elapse_mainWindow d c : mainWindow (elapse d c) = mainWindow c.
Proof. by destruct (elapse_undisturbed d c) as (_&?&_). Qed.

Lemma elapse_idle d c :
  shutdownTimeout c = None → elapse d c = set_now (now c + d) c.
Proof. intros H. unfold elapse. by rewrite H. Qed.

(** What [onTerminated] does, by the state that is left. *)
Lemma onTerminated_connected l w c :
  l_from l = connected →
  onTerminated l w c
  = (match lightning c with
     | Some s => if open s then set_lightning (Some (disconnect s)) c else c
     | None => c
     end, Returns tt).
Proof.
  intros H. unfold onTerminated. cbv [mbind M_bind get]. rewrite H. simpl.
  destruct (lightning c) as [[[]]|] eqn:E; simpl; [|reflexivity|reflexivity].
  unfold lightning_disconnect, modify. rewrite E. reflexivity.
Qed.

Lemma onTerminated_running l w c :
  l_from l = running → onTerminated l w c = shutdownNeutrino w c.
Proof. intros H. unfold onTerminated. cbv [mbind M_bind get]. rewrite H. reflexivity. Qed.

Lemma onTerminated_elsewhere l w c :
  l_from l ≠ connected → l_from l ≠ running → onTerminated l w c = (c, Returns tt).
Proof.
  intros H1 H2. unfold onTerminated. cbv [mbind M_bind get].
  destruct (l_from l); simpl; try done.
Qed.

Lemma sent_lightning (b : bool) l c :
  lightning (if b then set_outbox l c else c) = lightning c.
Proof. by destruct b. Qed.
Lemma sent_neutrino (b : bool) l c :
  neutrino (if b then set_outbox l c else c) = neutrino c.
Proof. by destruct b. Qed.
Lemma sent_shutdownTimeout (b : bool) l c :
  shutdownTimeout (if b then set_outbox l c else c) = shutdownTimeout c.
Proof. by destruct b. Qed.
Lemma sent_state (b : bool) l c :
  state (if b then set_outbox l c else c) = state c.
Proof. by destruct b. Qed.

(** X6.  Leaving 'connected', by [startOnboarding] or by [terminate]: the
    transition returns and the Lightning session, which is kept, is not open
    afterwards; the Neutrino object is not touched (no shutdown being
    pending). *)
Theorem leaving_connected_disconnects (t : Transition) (w : World) (c : Controller) :
  t = startOnboarding ∨ t = terminate →
  state c = connected →
  ∃ c',
    transit t w c = (c', Returns tt)
    ∧ closed (lightning c')
    ∧ (is_Some (lightning c) → is_Some (lightning c'))
    ∧ (shutdownTimeout c = None → neutrino c' = neutrino c).
Proof.
  intros Ht Hs.
  assert (∀ x : Controller, lightning x = lightning c →
          let y := match lightning x with
                   | Some s => if open s then set_lightning (Some (disconnect s)) x else x
                   | None => x
                   end in
          closed (lightning y) ∧ (is_Some (lightning c) → is_Some (lightning y))
          ∧ neutrino y = neutrino x ∧ shutdownTimeout y = shutdownTimeout x) as Hhang.
  { intros x Hx. rewrite <- Hx. destruct (lightning x) as [[[]]|] eqn:E; simpl; rewrite ?E.
    all: repeat split; eauto. }
  destruct Ht as [-> | ->].
  - rewrite transit_startOnboarding_changed by (rewrite Hs; discriminate).
    rewrite onTerminated_connected by exact Hs. cbn [fst].
    rewrite onStartOnboarding_returns.
    eexists. split; [reflexivity|].
    rewrite sent_lightning, sent_neutrino, elapse_lightning.
    match goal with |- context [elapse 200 ?y] =>
      match y with context [match lightning ?x with _ => _ end] =>
        destruct (Hhang x eq_refl) as (H1 & H2 & H3 & H4) end end.
    split; [exact H1|]. split; [exact H2|]. intros Htm.
    rewrite elapse_idle by (rewrite H4; exact Htm). cbn [neutrino set_now]. exact H3.
  - destruct (transit_terminate_changed w c) as (c2 & -> & E & _); [rewrite Hs; discriminate|].
    rewrite onTerminated_connected in E by exact Hs. inversion E as [E']. clear E.
    eexists. split; [reflexivity|].
    destruct (Hhang (set_state terminated c) eq_refl) as (H1 & H2 & H3 & H4).
    split; [exact H1|]. split; [exact H2|]. intros _. exact H3.
Qed.

Lemma leaving_connected_disconnects_witness :
  ∃ c',
    transit startOnboarding fair_world connected_remotely = (c', Returns tt)
    ∧ closed (lightning c')
    ∧ (is_Some (lightning connected_remotely) → is_Some (lightning c'))
    ∧ (shutdownTimeout connected_remotely = None
       → neutrino c' = neutrino connected_remotely).
Proof.
  apply (leaving_connected_disconnects startOnboarding fair_world connected_remotely);
    [left; reflexivity | reflexivity].
Defined.

(** *** Leaving 'running' *)

Lemma settled_fields r n c :
  settled r n c →
  shutdownTimeout c = None ∧ kills <$> neutrino c = Some (kills n)
  ∧ exitHandler <$> neutrino c = Some false.
Proof. intros (H1 & _ & H3 & H4). rewrite H3. simpl. by rewrite H4. Qed.

Lemma shutdownNeutrino_stops w c n :
  exit_expected c →
  type (lndConfig c) = local → neutrino c = Some n → process n = true →
  ∃ c2,
    shutdownNeutrino w c = (c2, Returns tt)
    ∧ closed (lightning c2)
    ∧ shutdownTimeout c2 = None
    ∧ exitHandler <$> neutrino c2 = Some false
    ∧ kills <$> neutrino c2
      = Some (kills n ++ (now c, SIGINT)
                         :: if exits_in_time w then []
                            else [((now c + shutdownDelay)%nat, SIGTERM)])%list.
Proof.
  intros Hx Ht Hn Hp. unfold shutdownNeutrino.
  assert (shutdown_guard c = false) as ->. { apply shutdown_guard_false. eauto. }
  destruct (shutdown_executor_pending c n Hn) as [Hpend Hnow].
  assert (0 < shutdownDelay)%nat as Hpos by (unfold shutdownDelay; lia).
  pose proof (shutdown_executor_closed c) as Hcl.
  assert (exit_expected (shutdown_executor c)) as Hx0.
  { revert Hx. apply state_expected.
    by destruct (shutdown_executor_untouched c) as (_&_&?&_). }
  eexists. split; [reflexivity|]. cbn [fst].
  rewrite run_loop_lightning by exact Hx0. split; [exact Hcl|].
  unfold until_settled, exits_in_time.
  destruct (exitAfter w) as [t|]; [destruct (t <? shutdownDelay)%nat eqn:E|];
    cbv [run_loop fold_left].
  all: rewrite (loop_step_expected (Elapse _)) by exact Hx0.
  - apply Nat.ltb_lt in E.
    rewrite loop_step_expected by (by apply (loop_step_stays_expected (Elapse t))).
    destruct (elapse_pending _ _ t _ Hpend) as [Hpend' _]; [lia|].
    destruct (settled_fields _ _ _ (once_exit_settles _ _ _ Hpend')) as (H1 & H2 & H3).
    split; [exact H1|]. split; [exact H3|]. exact H2.
  - destruct (settled_fields _ _ _ (elapse_fires _ _ shutdownDelay _ Hpend ltac:(lia)))
      as (H1 & H2 & H3).
    split; [exact H1|]. split; [exact H3|]. rewrite H2. simpl. by rewrite <- app_assoc.
  - destruct (settled_fields _ _ _ (elapse_fires _ _ shutdownDelay _ Hpend ltac:(lia)))
      as (H1 & H2 & H3).
    split; [exact H1|]. split; [exact H3|]. rewrite H2. simpl. by rewrite <- app_assoc.
Qed.

Lemma elapse_neutrino_idle d c :
  shutdownTimeout c = None →
  neutrino (elapse d c) = neutrino c ∧ shutdownTimeout (elapse d c) = None.
Proof. intros H. by rewrite elapse_idle. Qed.

(** X7.  Leaving 'running' with a local profile and a spawned lnd, by
    [startOnboarding] or by [terminate]: the transition returns only once the
    shutdown has settled.  lnd has then been sent SIGINT at the time of the
    call and, only if it did not exit within the 10 s, SIGTERM at the
    deadline, and nothing else; the Lightning session is not open, the timer
    is cleared and the one-shot 'exit' listener is gone. *)
Theorem leaving_running_stops_lnd (t : Transition) (w : World) (c : Controller)
    (n : Neutrino) :
  t = startOnboarding ∨ t = terminate →
  state c = running →
  type (lndConfig c) = local →
  neutrino c = Some n →
  process n = true →
  ∃ c',
    transit t w c = (c', Returns tt)
    ∧ closed (lightning c')
    ∧ shutdownTimeout c' = None
    ∧ exitHandler <$> neutrino c' = Some false
    ∧ kills <$> neutrino c'
      = Some (kills n ++ (now c, SIGINT)
                         :: if exits_in_time w then []
                            else [((now c + shutdownDelay)%nat, SIGTERM)])%list.
Proof.
  intros Ht Hs Hty Hn Hp. destruct Ht as [-> | ->].
  - rewrite transit_startOnboarding_changed by (rewrite Hs; discriminate).
    rewrite onTerminated_running by exact Hs.
    match goal with |- context [shutdownNeutrino w ?x] =>
      destruct (shutdownNeutrino_stops w x n ltac:(entered) Hty Hn Hp)
        as (c2 & -> & H1 & H2 & H3 & H4) end.
    cbn [fst]. rewrite onStartOnboarding_returns.
    eexists. split; [reflexivity|].
    destruct (elapse_neutrino_idle 200 c2 H2) as [Hne Htm].
    rewrite sent_lightning, sent_neutrino, sent_shutdownTimeout, elapse_lightning, Hne, Htm.
    split; [exact H1|]. split; [reflexivity|]. split; [exact H3|]. exact H4.
  - destruct (transit_terminate_changed w c) as (c2 & -> & E & _); [rewrite Hs; discriminate|].
    rewrite onTerminated_running in E by exact Hs.
    destruct (shutdownNeutrino_stops w (set_state terminated c) n ltac:(entered) Hty Hn Hp)
      as (c3 & E' & H1 & H2 & H3 & H4).
    rewrite E in E'. inversion E'; subst c3.
    eexists. split; [reflexivity|].
    split; [exact H1|]. split; [exact H2|]. split; [exact H3|]. exact H4.
Qed.

Lemma leaving_running_stops_lnd_witness :
  ∃ c',
    transit terminate fair_world running_locally = (c', Returns tt)
    ∧ closed (lightning c')
    ∧ shutdownTimeout c' = None
    ∧ exitHandler <$> neutrino c' = Some false
    ∧ kills <$> neutrino c' = Some [(now running_locally, SIGINT)].
Proof.
  apply (leaving_running_stops_lnd terminate fair_world running_locally
           {| process := true; kills := []; exitHandler := false |});
    [right; reflexivity | reflexivity ..].
Defined.

(** *** The 'startLnd' message outside 'onboarding' *)
Lemma finishOnboarding_rejected (SETTINGS_PROPS : ConnectionType → list string)
    options w c :
  (∀ k, k ∈ SETTINGS_PROPS (o_type options) → is_Some (o_fields options !! k)) →
  state c ≠ onboarding →
  finishOnboarding SETTINGS_PROPS options w c
  = (onboarded SETTINGS_PROPS options c,
     Throws (InvalidTransition
               (if ConnectionType_eqb (o_type options) local then startLnd else connectLnd)
               (state c))).
Proof.
  intros Hk Hs. rewrite finishOnboarding_unfold.
  apply LndConfig_new_profile_of in Hk as ->.
  rewrite transit_rejected; [reflexivity|].
  assert (State_eqb (state c) onboarding = false) as E.
  { destruct (State_eqb _ _) eqn:E; [by apply State_eqb_eq in E | done]. }
  destruct (ConnectionType_eqb _ _); simpl;
    [rewrite transitionFor_startLnd | rewrite transitionFor_connectLnd]; by rewrite E.
Qed.

(** X8.  A 'startLnd' message that arrives outside 'onboarding' (its listener
    stays registered in 'running', 'connected' and 'terminated') is refused by
    the state machine, but only after [finishOnboarding] has replaced and
    saved the profile and the active connection: the state, the Neutrino and
    Lightning objects and what was sent are as before, the profile is the new
    one.  (The options supply the settings of their type.) *)
Theorem finishOnboarding_outside_onboarding
    (SETTINGS_PROPS : ConnectionType → list string)
    (options : onboardingOptions) (w : World) (c : Controller) :
  (∀ k, k ∈ SETTINGS_PROPS (o_type options) → is_Some (o_fields options !! k)) →
  state c ≠ onboarding →
  ∃ c' t,
    finishOnboarding SETTINGS_PROPS options w c = (c', Throws (InvalidTransition t (state c)))
    ∧ state c' = state c
    ∧ lndConfig c' = profile_of SETTINGS_PROPS options
    ∧ savedConfig c' = Some (profile_of SETTINGS_PROPS options)
    ∧ ac_type <$> activeConnection c' = Some (o_type options)
    ∧ neutrino c' = neutrino c ∧ lightning c' = lightning c
    ∧ outbox c' = outbox c.
Proof.
  intros Hk Hs. rewrite (finishOnboarding_rejected SETTINGS_PROPS options w c Hk Hs).
  eexists _, _. split; [reflexivity|]. repeat split; reflexivity.
Qed.

Lemma finishOnboarding_outside_onboarding_witness :
  ∃ c' t,
    finishOnboarding settings_props custom_options fair_world running_locally
    = (c', Throws (InvalidTransition t (state running_locally)))
    ∧ state c' = state running_locally
    ∧ lndConfig c' = profile_of settings_props custom_options
    ∧ savedConfig c' = Some (profile_of settings_props custom_options)
    ∧ ac_type <$> activeConnection c' = Some (o_type custom_options)
    ∧ neutrino c' = neutrino running_locally
    ∧ lightning c' = lightning running_locally
    ∧ outbox c' = outbox running_locally.
Proof.
  apply (finishOnboarding_outside_onboarding settings_props custom_options fair_world
           running_locally).
  - supplied.
  - vm_compute. discriminate.
Defined.

Lemma shutdownNeutrino_guarded w c :
  shutdown_guard c = true → shutdownNeutrino w c = (c, Returns tt).
Proof. intros H. unfold shutdownNeutrino. by rewrite H. Qed.

(** X9.  A consequence for the shutdown.  If, while a local lnd is running, a
    'startLnd' message with a profile of another type arrives, the profile is
    replaced although the message is refused; the guard of [shutdownNeutrino]
    reads the new profile, so that a following [startOnboarding] enters
    'onboarding' without stopping lnd: the Neutrino object is as it was, no
    signal sent. *)
Theorem profile_switch_skips_shutdown
    (SETTINGS_PROPS : ConnectionType → list string)
    (options : onboardingOptions) (w1 w2 : World) (c : Controller) :
  (∀ k, k ∈ SETTINGS_PROPS (o_type options) → is_Some (o_fields options !! k)) →
  o_type options ≠ local →
  state c = running →
  shutdownTimeout c = None →
  let c1 := (finishOnboarding SETTINGS_PROPS options w1 c).1 in
  ∃ c2,
    transit startOnboarding w2 c1 = (c2, Returns tt)
    ∧ state c2 = onboarding
    ∧ neutrino c2 = neutrino c
    ∧ lightning c2 = lightning c.
Proof.
  intros Hk Hty Hs Htm c1. subst c1.
  rewrite finishOnboarding_rejected by (try done; rewrite Hs; discriminate). cbn [fst].
  rewrite transit_startOnboarding_changed by (simpl; rewrite Hs; discriminate).
  rewrite onTerminated_running by (simpl; exact Hs).
  rewrite shutdownNeutrino_guarded.
  2: { unfold shutdown_guard. simpl. by destruct (o_type options). }
  cbn [fst]. rewrite elapse_idle by exact Htm.
  rewrite onStartOnboarding_returns.
  eexists. split; [reflexivity|].
  rewrite sent_state, sent_neutrino, sent_lightning. repeat split; reflexivity.
Qed.

Lemma profile_switch_skips_shutdown_witness :
  let c1 := (finishOnboarding settings_props custom_options fair_world running_locally).1 in
  ∃ c2,
    transit startOnboarding fair_world c1 = (c2, Returns tt)
    ∧ state c2 = onboarding
    ∧ neutrino c2 = neutrino running_locally
    ∧ lightning c2 = lightning running_locally.
Proof.
  apply (profile_switch_skips_shutdown settings_props custom_options fair_world fair_world
           running_locally).
  - supplied.
  - discriminate.
  - reflexivity.
  - reflexivity.
Defined.

(** *** connectLnd *)
Lemma Code_eqb_eq a b : Code_eqb a b = true ↔ a = b.
Proof.
  destruct a, b; simpl; try (split; [discriminate | congruence]).
  - rewrite bool_decide_eq_true. split; congruence.
  - rewrite Z.eqb_eq. split; congruence.
  - done.
Qed.

(** X10.  [connectLnd] when the Lightning interface answers: the transition
    completes into 'connected' with a new, open Lightning session and one more
    listener on 'lnd'; the renderer is sent lightningGrpcActive and then
    walletConnected (nothing if the window is gone); the unlocker is not
    touched. *)
Theorem connectLnd_success (w : World) (c : Controller) :
  state c = onboarding →
  lightningConnect w = Connects →
  ∃ c',
    transit connectLnd w c = (c', Returns tt)
    ∧ state c' = connected
    ∧ lightning c' = Some {| open := true |}
    ∧ walletUnlocker c' = walletUnlocker c
    ∧ ipcListeners c' = (ipcListeners c ++ ["lnd"])%list
    ∧ outbox c' = (outbox c ++ if mainWindow c
                               then [("lightningGrpcActive", DUndefined);
                                     ("walletConnected", DUndefined)]
                               else [])%list.
Proof.
  intros Hs Hl. destruct c as [st mw ob cfg li wu ne il cs sc ac nw tm rs dl qt sp].
  destruct w as [lc uc ns ea ed]. simpl in *; subst.
  destruct mw; unfold_methods.
  - eexists. split; [reflexivity|]. simpl. rewrite <- app_assoc. repeat split; reflexivity.
  - eexists. split; [reflexivity|]. simpl. rewrite app_nil_r. repeat split; reflexivity.
Qed.

Lemma connectLnd_success_witness :
  ∃ c',
    transit connectLnd fair_world (at_onboarding None) = (c', Returns tt)
    ∧ state c' = connected
    ∧ lightning c' = Some {| open := true |}
    ∧ walletUnlocker c' = walletUnlocker (at_onboarding None)
    ∧ ipcListeners c' = (ipcListeners (at_onboarding None) ++ ["lnd"])%list
    ∧ outbox c' = (outbox (at_onboarding None)
                   ++ [("lightningGrpcActive", DUndefined);
                       ("walletConnected", DUndefined)])%list.
Proof.
  apply (connectLnd_success fair_world (at_onboarding None)); reflexivity.
Defined.

(** X11.  [connectLnd] when the Lightning interface fails with any error
    other than code 12: the error is rethrown, the state stays 'onboarding',
    no listener is added, and the renderer is sent exactly one startLndError
    (none if the window is gone).  Its host entry is always "Unable to connect
    to host: " followed by the details of the error, or by its message if it
    has no details; its cert entry is the message exactly for
    LND_GRPC_CERT_ERROR and its macaroon entry exactly for
    LND_GRPC_MACAROON_ERROR. *)
Theorem connectLnd_error_report (w : World) (c : Controller) (e : GrpcError) :
  state c = onboarding →
  lightningConnect w = Fails e →
  code e ≠ CodeNumber 12 →
  ∃ c',
    transit connectLnd w c = (c', Throws (ConnectError e))
    ∧ state c' = onboarding
    ∧ lightning c' = Some {| open := false |}
    ∧ walletUnlocker c' = walletUnlocker c
    ∧ ipcListeners c' = ipcListeners c
    ∧ outbox c'
      = (outbox c ++
         if mainWindow c
         then [("startLndError",
                DErrors
                  {| host := Some ("Unable to connect to host: "
                                   +:+ or_else (details e) (message e));
                     cert := if Code_eqb (code e) (CodeString "LND_GRPC_CERT_ERROR")
                             then Some (message e) else None;
                     macaroon := if Code_eqb (code e) (CodeString "LND_GRPC_MACAROON_ERROR")
                                 then Some (message e) else None |})]
         else [])%list.
Proof.
  intros Hs Hl He. destruct c as [st mw ob cfg li wu ne il cs sc ac nw tm rs dl qt sp].
  destruct w as [lc uc ns ea ed]. destruct e as [cd msg det]. simpl in *; subst.
  assert (Code_eqb cd (CodeNumber 12) = false) as E12.
  { destruct (Code_eqb _ _) eqn:E; [by apply Code_eqb_eq in E | done]. }
  unfold_methods. rewrite E12.
  destruct (Code_eqb cd (CodeString "LND_GRPC_HOST_ERROR")),
           (Code_eqb cd (CodeString "LND_GRPC_CERT_ERROR")) eqn:Ec,
           (Code_eqb cd (CodeString "LND_GRPC_MACAROON_ERROR")) eqn:Em, mw; simpl.
  all: try (apply Code_eqb_eq in Ec; apply Code_eqb_eq in Em; congruence).
  all: eexists; (split; [reflexivity|]); simpl; rewrite ?app_nil_r; repeat split; reflexivity.
Qed.

Lemma connectLnd_error_report_witness :
  let c := at_onboarding None in
  ∃ c',
    transit connectLnd (world_with (Fails (CertificateError "no cert")) Connects) c
    = (c', Throws (ConnectError (CertificateError "no cert")))
    ∧ state c' = onboarding
    ∧ lightning c' = Some {| open := false |}
    ∧ walletUnlocker c' = walletUnlocker c
    ∧ ipcListeners c' = ipcListeners c
    ∧ outbox c'
      = (outbox c ++
         [("startLndError",
           DErrors {| host := Some "Unable to connect to host: no cert";
                      cert := Some "no cert"; macaroon := None |})])%list.
Proof.
  apply (connectLnd_error_report
           (world_with (Fails (CertificateError "no cert")) Connects)
           (at_onboarding None) (CertificateError "no cert"));
    [reflexivity | reflexivity | discriminate].
Defined.

(** X12.  [connectLnd] when the Lightning interface fails with code 12 and
    the unlocker then fails too: the error of the unlocker (not the first
    one) is thrown, the state stays 'onboarding', and the renderer is told
    nothing, no startLndError either; both sessions are left, not open. *)
Theorem connectLnd_double_failure (w : World) (c : Controller) (e1 e2 : GrpcError) :
  state c = onboarding →
  lightningConnect w = Fails e1 →
  code e1 = CodeNumber 12 →
  unlockerConnect w = Fails e2 →
  ∃ c',
    transit connectLnd w c = (c', Throws (ConnectError e2))
    ∧ state c' = onboarding
    ∧ outbox c' = outbox c
    ∧ ipcListeners c' = ipcListeners c
    ∧ lightning c' = Some {| open := false |}
    ∧ walletUnlocker c' = Some {| open := false |}.
Proof.
  intros Hs Hl He Hu. destruct c as [st mw ob cfg li wu ne il cs sc ac nw tm rs dl qt sp].
  destruct w as [lc uc ns ea ed]. destruct e1 as [cd msg det]. simpl in *; subst.
  unfold_methods. eexists. split; [reflexivity|]. repeat split; reflexivity.
Qed.

Lemma connectLnd_double_failure_witness :
  let w := world_with (Fails (UnimplementedError "unknown service" None))
                      (Fails (HostUnreachableError "x")) in
  let c := at_onboarding None in
  ∃ c',
    transit connectLnd w c = (c', Throws (ConnectError (HostUnreachableError "x")))
    ∧ state c' = onboarding
    ∧ outbox c' = outbox c
    ∧ ipcListeners c' = ipcListeners c
    ∧ lightning c' = Some {| open := false |}
    ∧ walletUnlocker c' = Some {| open := false |}.
Proof.
  apply (connectLnd_double_failure
           (world_with (Fails (UnimplementedError "unknown service" None))
                       (Fails (HostUnreachableError "x")))
           (at_onboarding None)
           (UnimplementedError "unknown service" None) (HostUnreachableError "x"));
    reflexivity.
Defined.




(** *** One listener for each message of onboarding *)

Lemma stays_single_refl c : stays_single c c.
Proof. by intros H. Qed.
Lemma stays_single_trans c1 c2 c3 :
  stays_single c1 c2 → stays_single c2 c3 → stays_single c1 c3.
Proof. unfold stays_single. auto. Qed.

Lemma same_listeners_single c c' :
  ipcListeners c' = ipcListeners c → stays_single c c'.
Proof. intros H. unfold stays_single, single_listeners, listeners. by rewrite H. Qed.

Lemma undisturbed_single c c' : undisturbed c c' → stays_single c c'.
Proof. intros (_&_&_&_&_&H&_). by apply same_listeners_single. Qed.

Lemma sendMessage_single msg data : respects stays_single (sendMessage msg data).
Proof. intros c. apply same_listeners_single. unfold sendMessage. by destruct (mainWindow c). Qed.
Lemma walletUnlocker_connect_single r : respects stays_single (walletUnlocker_connect r).
Proof.
  intros c. apply same_listeners_single. unfold walletUnlocker_connect. by destruct (connect _ _).
Qed.
Lemma lightning_connect_single r : respects stays_single (lightning_connect r).
Proof.
  intros c. apply same_listeners_single. unfold lightning_connect. by destruct (connect _ _).
Qed.
Lemma neutrino_start_single r : respects stays_single (neutrino_start r).
Proof. intros c. apply same_listeners_single. unfold neutrino_start. by destruct r. Qed.
Lemma fresh_listeners_single c :
  stays_single c (set_ipcListeners (fresh_listeners (ipcListeners c)) c).
Proof.
  intros _. pose proof (fresh_listeners_count (ipcListeners c)) as (L1 & L2 & _).
  unfold single_listeners, listeners. simpl in *. lia.
Qed.

Lemma other_channel_single (ch : string) c :
  ch ≠ "startLnd" → ch ≠ "startLightningWallet" →
  stays_single c (set_ipcListeners (ipcListeners c ++ [ch]) c).
Proof.
  intros H1 H2. unfold stays_single, single_listeners, listeners. simpl.
  rewrite !List.filter_app, !length_app. simpl.
  rewrite !bool_decide_eq_false_2 by done. simpl. lia.
Qed.

Create HintDb single_db.
#[local] Hint Resolve sendMessage_single walletUnlocker_connect_single lightning_connect_single
  neutrino_start_single : single_db.

Ltac single_leaf :=
  first [ by eauto with single_db
        | by (apply undisturbed_single; first [apply elapse_undisturbed | apply once_exit_undisturbed])
        | by (apply other_channel_single)
        | by (apply same_listeners_single) ].

Lemma transit_single t w : respects stays_single (transit t w).
Proof.
  apply (transit_undisturbed stays_single stays_single_refl stays_single_trans
           undisturbed_single fresh_listeners_single).
  - intros s c. by apply same_listeners_single.
  - walk stays_single_refl stays_single_trans single_leaf.
  - walk stays_single_refl stays_single_trans single_leaf.
Qed.
#[local] Hint Resolve transit_single : single_db.
Lemma neutrino_on_single ev w : respects stays_single (neutrino_on ev w).
Proof. walk stays_single_refl stays_single_trans single_leaf. Qed.
Lemma startLightningWallet_single w : respects stays_single (startLightningWallet w).
Proof. walk stays_single_refl stays_single_trans single_leaf. Qed.

(** X14.  The listeners of the two messages of onboarding do not pile up: in
    every controller that can be reached from [new ZapController], [ipcMain]
    has at most one listener on 'startLnd' and at most one on
    'startLightningWallet' ([onOnboarding] removes them before it registers
    them, and nothing else registers them). *)
Theorem onboarding_listeners_single (SETTINGS_PROPS : ConnectionType → list string)
    (c : Controller) :
  reachable SETTINGS_PROPS c →
  (listeners "startLnd" c ≤ 1)%nat ∧ (listeners "startLightningWallet" c ≤ 1)%nat.
Proof.
  induction 1 as [config env | c e _ IH].
  - unfold listeners. simpl. lia.
  - revert IH. apply (handle_respects SETTINGS_PROPS stays_single
                        stays_single_refl stays_single_trans).
    + apply transit_single.
    + intros options c'. by apply same_listeners_single.
    + apply startLightningWallet_single.
    + apply neutrino_on_single.
    + intros c'. by apply same_listeners_single.
Qed.

Lemma onboarding_listeners_single_witness :
  let c := run settings_props
             [(Call startOnboarding, fair_world);
              (IpcStartLnd local_options, fair_world);
              (Call startOnboarding, fair_world)]
             (constructor no_config None) in
  (listeners "startLnd" c ≤ 1)%nat ∧ (listeners "startLightningWallet" c ≤ 1)%nat.
Proof.
  intros c.
  apply (onboarding_listeners_single settings_props c), run_reachable,
    reachable_constructor.
Defined.

(** *** The objects the states rely on *)

Lemma stay_existing_refl c : stay_existing c c.
Proof. by intros H. Qed.
Lemma stay_existing_trans c1 c2 c3 :
  stay_existing c1 c2 → stay_existing c2 c3 → stay_existing c1 c3.
Proof. unfold stay_existing. auto. Qed.

Lemma kept_stay_existing c c' : state c' = state c → kept c c' → stay_existing c c'.
Proof.
  intros Hs (Hn & Hl & _) [H1 H2]. unfold objects_exist. rewrite Hs. split; auto.
Qed.

Lemma untouched_kept_existing {A} (m : M A) :
  respects untouched m → respects kept m → respects stay_existing m.
Proof.
  intros H1 H2 c. apply kept_stay_existing; [|apply H2].
  by destruct (H1 c) as (_&_&?&_).
Qed.

Lemma transit_startOnboarding_state w c : state (transit startOnboarding w c).1 = onboarding.
Proof.
  destruct (State_eqb (state c) onboarding) eqn:Hs.
  - apply State_eqb_eq in Hs.
    rewrite (transit_startOnboarding_unchanged w c Hs), onStartOnboarding_returns.
    cbn [fst]. by rewrite sent_state.
  - rewrite transit_startOnboarding_changed
      by (intros E; apply State_eqb_eq in E; congruence).
    rewrite onStartOnboarding_returns. cbn [fst]. rewrite sent_state.
    match goal with |- context [onTerminated ?l w ?x] =>
      destruct (onTerminated_returning l w x ltac:(entered)) as (c2 & E & H) end.
    rewrite E. cbn [fst].
    by destruct (undisturbed_trans _ _ _ H (elapse_undisturbed 200 c2)) as (->&_).
Qed.

Lemma transit_existing t w : respects stay_existing (transit t w).
Proof.
  intros c HI. destruct t.
  - split; rewrite transit_startOnboarding_state; discriminate.
  - destruct (State_eqb (state c) onboarding) eqn:Hs.
    + apply State_eqb_eq in Hs.
      destruct c as [st mw ob cfg li wu ne il cs sc ac nw tm rs dl qt sp].
      simpl in Hs; subst. unfold_methods.
      destruct (neutrinoStart w); simpl; split; simpl; intros; try discriminate; eauto.
    + rewrite transit_rejected; [exact HI|]. rewrite transitionFor_startLnd. by rewrite Hs.
  - destruct (State_eqb (state c) onboarding) eqn:Hs.
    + apply State_eqb_eq in Hs.
      destruct c as [st mw ob cfg li wu ne il cs sc ac nw tm rs dl qt sp].
      simpl in Hs; subst. unfold_methods.
      destruct (lightningConnect w) as [|e]; simpl.
      * destruct mw; simpl; split; simpl; intros; try discriminate; eauto.
      * destruct (Code_eqb (code e) (CodeNumber 12)); simpl.
        -- destruct (unlockerConnect w); simpl;
             [destruct mw; simpl|]; split; simpl; intros; try discriminate; eauto.
        -- destruct mw; simpl; split; simpl; intros; try discriminate; eauto.
    + rewrite transit_rejected; [exact HI|]. rewrite transitionFor_connectLnd. by rewrite Hs.
  - destruct (transit_terminate_untouched w c) as (Hs & _).
    split; rewrite Hs; discriminate.
Qed.

Lemma neutrino_on_existing ev w : respects stay_existing (neutrino_on ev w).
Proof.
  destruct ev;
    try solve [apply untouched_kept_existing; [simpl; frame | apply neutrino_on_kept]].
  unfold neutrino_on.
  apply (respects_bind _ stay_existing_trans); [apply (respects_get _ stay_existing_refl)|].
  intros c. apply (respects_bind _ stay_existing_trans).
  - apply (respects_when _ stay_existing_refl).
    apply (respects_bind _ stay_existing_trans).
    + apply untouched_kept_existing; [frame|]. walk kept_refl kept_trans kept_leaf.
    + intros _. apply (respects_detached _ stay_existing_refl stay_existing_trans).
      apply transit_existing.
  - intros _. apply (respects_when _ stay_existing_refl). apply respects_modify.
    intros c'. destruct (once_exit_undisturbed c') as (Hs&_).
    apply kept_stay_existing; [exact Hs | apply undisturbed_kept, once_exit_undisturbed].
Qed.

(** X15.  The states have the objects their callbacks use: in every reachable
    controller, 'running' implies that [this.neutrino] is set and 'connected'
    that [this.lightning] is set. *)
Theorem states_have_their_objects (SETTINGS_PROPS : ConnectionType → list string)
    (c : Controller) :
  reachable SETTINGS_PROPS c →
  (state c = running → is_Some (neutrino c))
  ∧ (state c = connected → is_Some (lightning c)).
Proof.
  induction 1 as [config env | c e _ IH].
  - split; discriminate.
  - revert IH. apply (handle_respects SETTINGS_PROPS stay_existing
                        stay_existing_refl stay_existing_trans).
    + apply transit_existing.
    + intros options c'. by intros HI.
    + intros w. apply untouched_kept_existing;
        [apply startLightningWallet_untouched | apply startLightningWallet_kept].
    + apply neutrino_on_existing.
    + intros c'. by intros HI.
Qed.

Lemma states_have_their_objects_witness :
  let c := run settings_props
             [(Call startOnboarding, fair_world);
              (IpcStartLnd local_options, fair_world)]
             (constructor no_config None) in
  state c = running ∧ is_Some (neutrino c).
Proof.
  intros c. split; [reflexivity|].
  apply (states_have_their_objects settings_props c);
    [apply run_reachable, reachable_constructor | reflexivity].
Defined.

(** *** app.quit() *)

Lemma same_quit_refl c : same_quit c c.
Proof. done. Qed.
Lemma same_quit_trans c1 c2 c3 : same_quit c1 c2 → same_quit c2 c3 → same_quit c1 c3.
Proof. unfold same_quit. congruence. Qed.
Lemma undisturbed_same_quit c c' : undisturbed c c' → same_quit c c'.
Proof. by intros (_&_&_&_&_&_&_&H&_). Qed.

Lemma sendMessage_same_quit msg data : respects same_quit (sendMessage msg data).
Proof. intros c. unfold sendMessage. by destruct (mainWindow c). Qed.
Lemma walletUnlocker_connect_same_quit r : respects same_quit (walletUnlocker_connect r).
Proof. intros c. unfold walletUnlocker_connect. by destruct (connect _ _). Qed.
Lemma lightning_connect_same_quit r : respects same_quit (lightning_connect r).
Proof. intros c. unfold lightning_connect. by destruct (connect _ _). Qed.
Lemma neutrino_start_same_quit r : respects same_quit (neutrino_start r).
Proof. intros c. unfold neutrino_start. by destruct r. Qed.

Create HintDb quit_db.
#[local] Hint Resolve sendMessage_same_quit walletUnlocker_connect_same_quit
  lightning_connect_same_quit neutrino_start_same_quit : quit_db.

Ltac quit_leaf :=
  first [ by eauto with quit_db
        | by (apply undisturbed_same_quit;
              first [apply elapse_undisturbed | apply once_exit_undisturbed])
        | reflexivity ].

Lemma transit_same_quit t w : t ≠ terminate → respects same_quit (transit t w).
Proof.
  intros Ht.
  apply (transit_undisturbed same_quit same_quit_refl same_quit_trans
           undisturbed_same_quit).
  - reflexivity.
  - reflexivity.
  - walk same_quit_refl same_quit_trans quit_leaf.
  - destruct t; [| | |done]; walk same_quit_refl same_quit_trans quit_leaf.
Qed.

Lemma neutrino_on_same_quit ev w :
  (∀ text, ev ≠ exit text) → respects same_quit (neutrino_on ev w).
Proof.
  intros Hev. destruct ev as [e|text| | | | | | |]; [|by destruct (Hev text)|..];
    unfold neutrino_on; walk same_quit_refl same_quit_trans quit_leaf.
Qed.

Lemma startLightningWallet_same_quit w : respects same_quit (startLightningWallet w).
Proof. walk same_quit_refl same_quit_trans quit_leaf. Qed.

(** X16.  [app.quit()] is called by nothing but termination: along any
    sequence of events with no call of [terminate] and no 'exit' of lnd,
    [quit] is as it was, whatever fails on the way. *)
Theorem quit_only_on_terminate (SETTINGS_PROPS : ConnectionType → list string)
    (es : list (Event * World)) (c : Controller) :
  Forall (λ e : Event * World, e.1 ≠ Call terminate ∧ ∀ text, e.1 ≠ Emit (exit text)) es →
  quit (run SETTINGS_PROPS es c) = quit c.
Proof.
  revert c. induction es as [|[ev w] es IH]; intros c Hes; [done|].
  inversion Hes as [|? ? [H1 H2] Hrest]; subst. simpl in *.
  rewrite (IH _ Hrest). unfold step. simpl.
  assert (respects same_quit (handle SETTINGS_PROPS ev w)) as H; [|apply H].
  destruct ev as [t|options| |ev|]; simpl.
  - apply transit_same_quit. congruence.
  - apply (respects_bind _ same_quit_trans); [apply (respects_get _ same_quit_refl)|].
    intros c0. apply (respects_foldr _ same_quit_refl same_quit_trans).
    intros c1. rewrite finishOnboarding_unfold.
    destruct (LndConfig_new _ _); [reflexivity|].
    eapply same_quit_trans; [|apply transit_same_quit; by destruct (ConnectionType_eqb _ _)].
    reflexivity.
  - apply (respects_bind _ same_quit_trans); [apply (respects_get _ same_quit_refl)|].
    intros c0. apply (respects_foldr _ same_quit_refl same_quit_trans).
    apply startLightningWallet_same_quit.
  - apply (respects_bind _ same_quit_trans); [apply (respects_get _ same_quit_refl)|].
    intros c0. destruct (neutrino c0); [|apply (respects_ret _ same_quit_refl)].
    apply neutrino_on_same_quit. intros text E. apply (H2 text). by rewrite E.
  - apply respects_modify. reflexivity.
Qed.

Lemma quit_only_on_terminate_witness :
  quit (run settings_props
          [(Call startOnboarding, fair_world);
           (IpcStartLnd custom_options,
            world_with (Fails (HostUnreachableError "x")) Connects);
           (Closed, fair_world)]
          (constructor no_config None))
  = quit (constructor no_config None).
Proof.
  apply (quit_only_on_terminate settings_props).
  repeat first [apply Forall_nil | apply Forall_cons | split | intros; simpl; discriminate].
Defined.

(** *** No shutdown is left pending *)

Lemma stays_idle_refl c : stays_idle c c.
Proof. by intros H. Qed.
Lemma stays_idle_trans c1 c2 c3 : stays_idle c1 c2 → stays_idle c2 c3 → stays_idle c1 c3.
Proof. unfold stays_idle. auto. Qed.

Lemma same_timer_idle c c' :
  shutdownTimeout c' = shutdownTimeout c → neutrino c' = neutrino c → stays_idle c c'.
Proof. intros H1 H2 [H3 H4]. split; [congruence | by rewrite H2]. Qed.

Lemma elapse_idle_stays d c : stays_idle c (elapse d c).
Proof. intros [H1 H2]. rewrite elapse_idle by exact H1. by split. Qed.

Lemma once_exit_idle c : stays_idle c (once_exit c).
Proof.
  intros HI. pose proof HI as [H1 H2]. unfold once_exit.
  destruct (neutrino c) as [n|] eqn:E; [|exact HI].
  rewrite (H2 n eq_refl). exact HI.
Qed.

Lemma shutdownNeutrino_idle w c :
  exit_expected c → stays_idle c (shutdownNeutrino w c).1.
Proof.
  intros Hx HI. destruct (shutdown_guard c) eqn:G.
  - rewrite shutdownNeutrino_guarded by exact G. exact HI.
  - apply shutdown_guard_false in G as (Ht & n & Hn & Hp).
    destruct (shutdownNeutrino_stops w c n Hx Ht Hn Hp) as (c2 & -> & _ & H2 & H3 & _).
    simpl. split; [exact H2|]. intros n' Hn'. rewrite Hn' in H3. simpl in H3. congruence.
Qed.

Lemma sendMessage_idle msg data : respects stays_idle (sendMessage msg data).
Proof. intros c. unfold sendMessage. by destruct (mainWindow c); apply same_timer_idle. Qed.
Lemma walletUnlocker_connect_idle r : respects stays_idle (walletUnlocker_connect r).
Proof.
  intros c. unfold walletUnlocker_connect. by destruct (connect _ _); apply same_timer_idle.
Qed.
Lemma lightning_connect_idle r : respects stays_idle (lightning_connect r).
Proof.
  intros c. unfold lightning_connect. by destruct (connect _ _); apply same_timer_idle.
Qed.
Lemma neutrino_start_idle r : respects stays_idle (neutrino_start r).
Proof.
  intros c [H1 H2]. unfold neutrino_start. destruct r; [|by split].
  split; [exact H1|]. simpl. intros n Hn.
  destruct (neutrino c) as [n0|]; [|discriminate]. inversion Hn. simpl. by apply H2.
Qed.
Lemma new_Neutrino_idle c :
  stays_idle c (set_spawned (S (spawned c)) (set_neutrino (Some new_Neutrino) c)).
Proof. intros [H1 H2]. split; [exact H1|]. simpl. intros n Hn. by inversion Hn. Qed.

Create HintDb idle_db.
#[local] Hint Resolve sendMessage_idle walletUnlocker_connect_idle lightning_connect_idle
  neutrino_start_idle : idle_db.

Ltac idle_leaf :=
  first [ by eauto with idle_db
        | by apply elapse_idle_stays
        | by apply once_exit_idle
        | by apply new_Neutrino_idle
        | by (apply same_timer_idle; reflexivity) ].

Lemma onState_idle l w c : state c = l_to l → stays_idle c (onState l w c).1.
Proof.
  apply (onState_entered stays_idle stays_idle_refl stays_idle_trans).
  - apply shutdownNeutrino_idle.
  - intros c'. by apply same_timer_idle.
  - intros c'. by apply same_timer_idle.
  - apply elapse_idle_stays.
Qed.

Lemma transit_idle t w : respects stays_idle (transit t w).
Proof.
  apply (transit_respects stays_idle stays_idle_refl stays_idle_trans).
  - intros s c. by apply same_timer_idle.
  - apply onState_idle.
  - walk stays_idle_refl stays_idle_trans idle_leaf.
  - walk stays_idle_refl stays_idle_trans idle_leaf.
Qed.
#[local] Hint Resolve transit_idle : idle_db.
Lemma neutrino_on_idle ev w : respects stays_idle (neutrino_on ev w).
Proof. walk stays_idle_refl stays_idle_trans idle_leaf. Qed.
Lemma startLightningWallet_idle w : respects stays_idle (startLightningWallet w).
Proof. walk stays_idle_refl stays_idle_trans idle_leaf. Qed.

(** X17.  No shutdown is left pending: transitions running to completion, in
    every reachable controller the timer of [shutdownNeutrino] is not set and
    its one-shot 'exit' listener is not registered on the Neutrino object
    (the timer is cleared by the listener, and the listener removed by the
    timer). *)
Theorem no_timer_left_behind (SETTINGS_PROPS : ConnectionType → list string)
    (c : Controller) :
  reachable SETTINGS_PROPS c →
  shutdownTimeout c = None ∧ ∀ n, neutrino c = Some n → exitHandler n = false.
Proof.
  induction 1 as [config env | c e _ IH].
  - split; [reflexivity | discriminate].
  - revert IH. apply (handle_respects SETTINGS_PROPS stays_idle
                        stays_idle_refl stays_idle_trans).
    + apply transit_idle.
    + intros options c'. by apply same_timer_idle.
    + apply startLightningWallet_idle.
    + apply neutrino_on_idle.
    + intros c'. by apply same_timer_idle.
Qed.

Lemma no_timer_left_behind_witness :
  let c := run settings_props
             [(Call startOnboarding, fair_world);
              (IpcStartLnd local_options, fair_world);
              (Call startOnboarding, fair_world)]
             (constructor no_config None) in
  shutdownTimeout c = None ∧ ∀ n, neutrino c = Some n → exitHandler n = false.
Proof.
  intros c.
  apply (no_timer_left_behind settings_props c), run_reachable, reachable_constructor.
Defined.

(** *** startLnd *)
(** X18.  [startLnd] from 'onboarding' replaces [this.neutrino] by a new
    Neutrino object, whatever was there, and starts it.  If the start succeeds
    the state is 'running'; if it fails the error is thrown and the state
    stays 'onboarding', with the new object, which has no process, in place.
    Nothing is sent to the renderer and no session is touched.  ([start] is
    modelled from the spec.) *)
Theorem startLnd_outcome (w : World) (c : Controller) :
  state c = onboarding →
  ∃ c',
    transit startLnd w c
    = (c', match neutrinoStart w with Starts => Returns tt | FailsToStart => Throws SpawnError end)
    ∧ state c' = (match neutrinoStart w with Starts => running | FailsToStart => onboarding end)
    ∧ neutrino c'
      = Some {| process := match neutrinoStart w with Starts => true | FailsToStart => false end;
                kills := []; exitHandler := false |}
    ∧ spawned c' = S (spawned c)
    ∧ outbox c' = outbox c
    ∧ lightning c' = lightning c ∧ walletUnlocker c' = walletUnlocker c.
Proof.
  intros Hs. destruct c as [st mw ob cfg li wu ne il cs sc ac nw tm rs dl qt sp].
  simpl in *; subst. unfold_methods.
  destruct (neutrinoStart w); simpl; (eexists; split; [reflexivity|]); repeat split; reflexivity.
Qed.

Lemma startLnd_outcome_witness :
  ∃ c',
    transit startLnd fair_world (at_onboarding None) = (c', Returns tt)
    ∧ state c' = running
    ∧ neutrino c' = Some {| process := true; kills := []; exitHandler := false |}
    ∧ spawned c' = S (spawned (at_onboarding None))
    ∧ outbox c' = outbox (at_onboarding None)
    ∧ lightning c' = lightning (at_onboarding None)
    ∧ walletUnlocker c' = walletUnlocker (at_onboarding None).
Proof.
  apply (startLnd_outcome fair_world (at_onboarding None)). reflexivity.
Defined.
